(** * MTCircularBuffer: a shallow embedding of the multi-threaded circular buffer

    The development follows [MTCircularBuffer.hpp]: a ring of [N] slots, a
    per-slot [boost::shared_mutex], a coarse [boost::timed_mutex] guarding the
    write cursor, a queue of dirty slots and a condition variable.

    Modelling conventions.
    - [size_t] values are [N] with the 64-bit wrap-around written out.
    - A vector is a list; [v[i]] is the stdpp lookup [v !! N.to_nat i].  The
      source performs no bounds check in [operator[]], so an access outside
      the vector is undefined behaviour, which the model reports as the
      outcome [Undefined].
    - Every public operation is one atomic transition of the buffer.  A timed
      lock acquisition is decided by the state of the mutex at that instant:
      it succeeds when the mutex is available and times out otherwise (no
      other holder lets go of it within the deadline).
    - [boost::get_system_time()] is the integer [now], in milliseconds.  The
      only other threads that matter to a waiting reader are producers, whose
      write handles go out of scope at given instants; they are the
      [pending] list of the two waiting operations. *)

From stdpp Require Import base numbers option list strings pretty.

Local Open Scope N_scope.

(** ** Machine integers *)

Definition SIZE_MAX : N := 2 ^ 64 - 1.

(** [++x] and [x++] on a [size_t]. *)
Definition size_t_incr (x : N) : N := (x + 1) mod 2 ^ 64.

(** [x--] on a [size_t]: zero wraps to [SIZE_MAX]. *)
Definition size_t_decr (x : N) : N := (x + SIZE_MAX) mod 2 ^ 64.

(** A value that fits the type. *)
Definition size_t_range (x : N) : Prop := x < 2 ^ 64.

(** ** Time *)

Definition DEFAULT_LOCK_TIMEOUT_SEC : Z := 1.

(** [boost::posix_time::time_duration lock_timeout(0, 0, DEFAULT_LOCK_TIMEOUT_SEC)],
    in milliseconds. *)
Definition lock_timeout : Z := (DEFAULT_LOCK_TIMEOUT_SEC * 1000)%Z.

(** ** boost::shared_mutex *)

Record shared_mutex := {
  exclusive : bool;   (* held by a unique_lock *)
  shared : nat        (* number of shared_lock holders *)
}.

Definition shared_mutex_new : shared_mutex := {| exclusive := false; shared := 0 |}.

(** [boost::unique_lock<boost::shared_mutex> um(m, timeout)]: the new state of
    the mutex when [um.owns_lock()], [None] when the attempt timed out. *)
Definition timed_lock (m : shared_mutex) : option shared_mutex :=
  if exclusive m || negb (Nat.eqb (shared m) 0) then None
  else Some {| exclusive := true; shared := shared m |}.

(** [boost::shared_lock<boost::shared_mutex> um(m, deadline)]. *)
Definition timed_lock_shared (m : shared_mutex) : option shared_mutex :=
  if exclusive m then None
  else Some {| exclusive := false; shared := S (shared m) |}.

Definition unlock (m : shared_mutex) : shared_mutex :=
  {| exclusive := false; shared := shared m |}.

Definition unlock_shared (m : shared_mutex) : shared_mutex :=
  {| exclusive := exclusive m; shared := pred (shared m) |}.

(** ** Slot descriptors, handles, exceptions *)

Record BufferSlotDescriptor := {
  slot_mtx : shared_mutex;
  writing : bool;
  n_reading : N;
  is_dirty : bool
}.

(** [new BufferSlotDescriptor()]: the struct has no user-provided constructor,
    so the empty parentheses value-initialise it; the scalar members are
    zeroed before the mutex is constructed. *)
Definition BufferSlotDescriptor_new : BufferSlotDescriptor :=
  {| slot_mtx := shared_mutex_new; writing := false; n_reading := 0;
     is_dirty := false |}.

Definition set_slot_mtx (m : shared_mutex) (d : BufferSlotDescriptor) :=
  {| slot_mtx := m; writing := writing d; n_reading := n_reading d;
     is_dirty := is_dirty d |}.

Definition set_writing (w : bool) (d : BufferSlotDescriptor) :=
  {| slot_mtx := slot_mtx d; writing := w; n_reading := n_reading d;
     is_dirty := is_dirty d |}.

Definition set_n_reading (n : N) (d : BufferSlotDescriptor) :=
  {| slot_mtx := slot_mtx d; writing := writing d; n_reading := n;
     is_dirty := is_dirty d |}.

Definition set_is_dirty (x : bool) (d : BufferSlotDescriptor) :=
  {| slot_mtx := slot_mtx d; writing := writing d; n_reading := n_reading d;
     is_dirty := x |}.

(** The third template argument of [BufferSlotAccess]. *)
Inductive ACCESS_OPT := ACCESS_OPT_WRITE | ACCESS_OPT_READ | ACCESS_OPT_CONSUME.

(** [BufferSlotAccess<LOCK_TYPE, OPT>].  [data] is the address of a cell of
    [buff], given by the index of the cell ([None] is the null pointer);
    [slot_lock] names the slot whose mutex the lock object owns; [srcBuffer]
    tells whether the back pointer is non-null. *)
Record BufferSlotAccess := {
  data : option N;
  slot_lock : option N;
  _slot : N;
  srcBuffer : bool
}.

(** [BufferSlotAccess() : _slot(-1), slot(_slot), srcBuffer(0), data(0)] *)
Definition BufferSlotAccess_new : BufferSlotAccess :=
  {| data := None; slot_lock := None; _slot := SIZE_MAX; srcBuffer := false |}.

(** [const size_t& slot] aliases [_slot]. *)
Definition slot (acc : BufferSlotAccess) : N := _slot acc.

(** The state in which an access method leaves a handle it has granted. *)
Definition granted (s : N) : BufferSlotAccess :=
  {| data := Some s; slot_lock := Some s; _slot := s; srcBuffer := true |}.

Inductive exn := SlotAcqTimeout | DataAvailableTimeout.

(** How a call ends: it returns, it throws (the state is the one at the
    throw), or it indexes a vector out of range. *)
Inductive outcome (A : Type) :=
| Returned (a : A)
| Thrown (e : exn) (a : A)
| Undefined.
Arguments Returned {A} a.
Arguments Thrown {A} e a.
Arguments Undefined {A}.

Inductive signal := notify_one | notify_all.

Section Buffer.

Context {T : Type}.

(** [T()], the value the cells are built with. *)
Variable T_new : T.

Record MTCircularBuffer := {
  main_mtx : bool;                (* the coarse timed_mutex is held *)
  data_available : list signal;   (* signals raised so far, oldest first *)
  buff : list T;
  buff_desc : list BufferSlotDescriptor;
  dirty_slots : list N;           (* std::queue, front first *)
  curr_w_slot : N
}.

Definition set_data_available (s : list signal) (b : MTCircularBuffer) :=
  {| main_mtx := main_mtx b; data_available := s; buff := buff b;
     buff_desc := buff_desc b; dirty_slots := dirty_slots b;
     curr_w_slot := curr_w_slot b |}.

Definition set_buff_desc (ds : list BufferSlotDescriptor) (b : MTCircularBuffer) :=
  {| main_mtx := main_mtx b; data_available := data_available b; buff := buff b;
     buff_desc := ds; dirty_slots := dirty_slots b;
     curr_w_slot := curr_w_slot b |}.

Definition set_dirty_slots (q : list N) (b : MTCircularBuffer) :=
  {| main_mtx := main_mtx b; data_available := data_available b; buff := buff b;
     buff_desc := buff_desc b; dirty_slots := q;
     curr_w_slot := curr_w_slot b |}.

Definition set_curr_w_slot (w : N) (b : MTCircularBuffer) :=
  {| main_mtx := main_mtx b; data_available := data_available b; buff := buff b;
     buff_desc := buff_desc b; dirty_slots := dirty_slots b;
     curr_w_slot := w |}.

(** [buff_desc[i]] read and written through the pointer. *)
Definition desc (i : N) (b : MTCircularBuffer) : option BufferSlotDescriptor :=
  buff_desc b !! N.to_nat i.

Definition set_desc (i : N) (d : BufferSlotDescriptor) (b : MTCircularBuffer) :=
  set_buff_desc (<[N.to_nat i := d]> (buff_desc b)) b.

(** A lock object going out of scope: it lets go of the mutex it owns, if
    any.  The lock holds a pointer to the mutex, so nothing is indexed. *)
Definition drop_lock (f : shared_mutex -> shared_mutex) (l : option N)
    (b : MTCircularBuffer) : MTCircularBuffer :=
  match l with
  | None => b
  | Some k =>
      set_buff_desc
        (alter (fun d => set_slot_mtx (f (slot_mtx d)) d) (N.to_nat k) (buff_desc b)) b
  end.

(** *** Constructor *)

Definition MTCircularBuffer_new (size : N) : MTCircularBuffer :=
  {| main_mtx := false;
     data_available := [];
     buff := replicate (N.to_nat size) T_new;
     buff_desc :=
       (fun _ => set_n_reading 0 (set_writing false BufferSlotDescriptor_new))
         <$> seq 0 (N.to_nat size);
     dirty_slots := [];
     curr_w_slot := 0 |}.

(** *** Observers *)

Definition size (b : MTCircularBuffer) : N := N.of_nat (length (buff b)).

Definition is_written (i : N) (b : MTCircularBuffer) : bool :=
  if i <? N.of_nat (length (buff_desc b)) then
    match desc i b with Some d => writing d | None => false end
  else false.

Definition num_concurrent_read (i : N) (b : MTCircularBuffer) : N :=
  if i <? N.of_nat (length (buff_desc b)) then
    match desc i b with Some d => n_reading d | None => 0 end
  else 0.

Definition is_read (i : N) (b : MTCircularBuffer) : bool :=
  0 <? num_concurrent_read i b.

Definition num_consumable_slots (b : MTCircularBuffer) : N :=
  N.of_nat (length (dirty_slots b)).

(** *** clear *)

Definition clear (b : MTCircularBuffer) : outcome MTCircularBuffer :=
  if main_mtx b then Thrown SlotAcqTimeout b
  else Returned (set_curr_w_slot 0 (set_dirty_slots [] b)).

(** *** write_next *)

Definition write_next (acc : BufferSlotAccess) (overwrite_occurred : option bool)
    (b : MTCircularBuffer)
    : outcome (BufferSlotAccess * option bool * MTCircularBuffer) :=
  match desc (curr_w_slot b) b with
  | None => Undefined
  | Some d =>
      match timed_lock (slot_mtx d) with
      | None => Thrown SlotAcqTimeout (acc, overwrite_occurred, b)
      | Some um =>
          let overwrite_occurred' := (fun _ => is_dirty d) <$> overwrite_occurred in
          match buff b !! N.to_nat (curr_w_slot b) with
          | None => Undefined
          | Some _ =>
              let acc' := granted (curr_w_slot b) in
              let b1 := set_desc (curr_w_slot b) (set_writing true (set_slot_mtx um d)) b in
              (* acc.slot_lock.swap( um ): um leaves the scope with the lock
                 the handle owned before *)
              let b2 := drop_lock unlock (slot_lock acc) b1 in
              if main_mtx b2 then Thrown SlotAcqTimeout (acc', overwrite_occurred', b2)
              else if size b2 =? 0 then Undefined
              else
                Returned (acc', overwrite_occurred',
                          set_curr_w_slot (size_t_incr (curr_w_slot b2) mod size b2) b2)
          end
      end
  end.

(** *** The three read paths *)

(** The statements the three read paths share once the shared lock is owned:
    bind the handle, count the reader, move the lock into the handle. *)
Definition grant_shared (s : N) (um : shared_mutex) (d : BufferSlotDescriptor)
    (acc : BufferSlotAccess) (b : MTCircularBuffer)
    : outcome (BufferSlotAccess * MTCircularBuffer) :=
  match buff b !! N.to_nat s with
  | None => Undefined
  | Some _ =>
      let b1 := set_desc s (set_n_reading (size_t_incr (n_reading d)) (set_slot_mtx um d)) b in
      Returned (granted s, drop_lock unlock_shared (slot_lock acc) b1)
  end.

Definition read_slot (s : N) (acc : BufferSlotAccess) (b : MTCircularBuffer)
    : outcome (BufferSlotAccess * MTCircularBuffer) :=
  match desc s b with
  | None => Undefined
  | Some d =>
      match timed_lock_shared (slot_mtx d) with
      | None => Thrown SlotAcqTimeout (acc, b)
      | Some um => grant_shared s um d acc b
      end
  end.

(** *** Release *)

Definition release_slot_access_W (acc : BufferSlotAccess) (b : MTCircularBuffer)
    : option MTCircularBuffer :=
  d ← desc (slot acc) b;
  let b1 := set_desc (slot acc) (set_is_dirty true (set_writing false d)) b in
  let b2 := set_dirty_slots (dirty_slots b1 ++ [slot acc]) b1 in
  Some (set_data_available (data_available b2 ++ [notify_one]) b2).

Definition release_slot_access_R (acc : BufferSlotAccess) (b : MTCircularBuffer)
    : option MTCircularBuffer :=
  d ← desc (slot acc) b;
  Some (set_desc (slot acc) (set_n_reading (size_t_decr (n_reading d)) d) b).

Definition release_slot_access_C (acc : BufferSlotAccess) (b : MTCircularBuffer)
    : option MTCircularBuffer :=
  d ← desc (slot acc) b;
  Some (set_desc (slot acc)
          (set_n_reading (size_t_decr (n_reading d)) (set_is_dirty false d)) b).

Definition release_slot_access (opt : ACCESS_OPT) :=
  match opt with
  | ACCESS_OPT_WRITE => release_slot_access_W
  | ACCESS_OPT_READ => release_slot_access_R
  | ACCESS_OPT_CONSUME => release_slot_access_C
  end.

(** [LOCK_TYPE]'s way of letting go: [unique_lock] for writers, [shared_lock]
    for the two kinds of readers. *)
Definition lock_release (opt : ACCESS_OPT) : shared_mutex -> shared_mutex :=
  match opt with
  | ACCESS_OPT_WRITE => unlock
  | _ => unlock_shared
  end.

(** [~BufferSlotAccess()]: the body, then the destructor of [slot_lock].
    [None] when [release_slot_access] indexes out of range. *)
Definition destroy (opt : ACCESS_OPT) (acc : BufferSlotAccess) (b : MTCircularBuffer)
    : option MTCircularBuffer :=
  b' ← (if srcBuffer acc then release_slot_access opt acc b else Some b);
  Some (drop_lock (lock_release opt) (slot_lock acc) b').

(** *** Waiting for data *)

Inductive wait_result :=
| Available (now : Z) (pending : list (Z * BufferSlotAccess)) (b : MTCircularBuffer)
| TimedOut (now : Z) (b : MTCircularBuffer)
| WaitUndefined.

(** [while( dirty_slots.empty() ) if( !data_available.timed_wait( lock, deadline ) ) throw ...]

    [deadline now] is the absolute time handed to [timed_wait] when the clock
    reads [now].  [pending] lists, in order, the instants at which a producer
    lets a write handle go out of scope.  [timed_wait] returns [true] when
    such a release (and its [notify_one]) comes before the deadline, and
    [false] at the deadline otherwise. *)
Fixpoint wait_data_available (deadline : Z -> Z) (now : Z)
    (pending : list (Z * BufferSlotAccess)) (b : MTCircularBuffer) : wait_result :=
  match dirty_slots b with
  | _ :: _ => Available now pending b
  | [] =>
      match pending with
      | [] => TimedOut (now `max` deadline now)%Z b
      | (t, p) :: pending' =>
          if (t <? deadline now)%Z then
            match destroy ACCESS_OPT_WRITE p b with
            | Some b' => wait_data_available deadline (now `max` t)%Z pending' b'
            | None => WaitUndefined
            end
          else TimedOut (now `max` deadline now)%Z b
      end
  end.

(** The deadline [read_newest_available] passes: [boost::get_system_time()]. *)
Definition read_newest_available_deadline (now : Z) : Z := now.

(** The deadline [consume_next_available] passes:
    [boost::get_system_time() + lock_timeout]. *)
Definition consume_next_available_deadline (now : Z) : Z := (now + lock_timeout)%Z.

Definition read_newest_available (now : Z) (pending : list (Z * BufferSlotAccess))
    (acc : BufferSlotAccess) (b : MTCircularBuffer)
    : outcome (BufferSlotAccess * MTCircularBuffer) :=
  match wait_data_available read_newest_available_deadline now pending b with
  | WaitUndefined => Undefined
  | TimedOut _ b' => Thrown DataAvailableTimeout (acc, b')
  | Available _ _ b' =>
      match last (dirty_slots b') with
      | None => Undefined   (* back() of an empty queue; the loop excludes it *)
      | Some s =>
          match desc s b' with
          | None => Undefined
          | Some d =>
              match timed_lock_shared (slot_mtx d) with
              | None => Thrown SlotAcqTimeout (acc, b')
              | Some um => grant_shared s um d acc b'
              end
          end
      end
  end.

Definition consume_next_available (now : Z) (pending : list (Z * BufferSlotAccess))
    (acc : BufferSlotAccess) (b : MTCircularBuffer)
    : outcome (BufferSlotAccess * MTCircularBuffer) :=
  match wait_data_available consume_next_available_deadline now pending b with
  | WaitUndefined => Undefined
  | TimedOut _ b' => Thrown DataAvailableTimeout (acc, b')
  | Available _ _ b' =>
      match dirty_slots b' with
      | [] => Undefined     (* front() of an empty queue; the loop excludes it *)
      | s :: rest =>
          match desc s b' with
          | None => Undefined
          | Some d =>
              match timed_lock_shared (slot_mtx d) with
              | None =>
                  Thrown SlotAcqTimeout
                    (acc, set_data_available (data_available b' ++ [notify_all]) b')
              | Some um => grant_shared s um d acc (set_dirty_slots rest b')
              end
          end
      end
  end.

(** ** Client programs

    A single-threaded client in the style of the test scenarios: it declares
    handles, calls the access methods on them, and lets them go out of scope.
    The waiting operations run with no producer pending. *)

Inductive call :=
| call_write_next
| call_read_slot (s : N)
| call_read_newest_available
| call_consume_next_available
| call_clear
| call_destroy (h : nat).

Record client := {
  buffer : MTCircularBuffer;
  handles : list (ACCESS_OPT * BufferSlotAccess)   (* the handles in scope *)
}.

Definition client_new (size : N) : client :=
  {| buffer := MTCircularBuffer_new size; handles := [] |}.

(** A handle stays in scope whether the call returned or threw. *)
Definition after_access (opt : ACCESS_OPT) (c : client)
    (r : outcome (BufferSlotAccess * MTCircularBuffer)) : option client :=
  match r with
  | Returned (acc, b) | Thrown _ (acc, b) =>
      Some {| buffer := b; handles := handles c ++ [(opt, acc)] |}
  | Undefined => None
  end.

Definition step (c : client) (k : call) : option client :=
  match k with
  | call_write_next =>
      match write_next BufferSlotAccess_new None (buffer c) with
      | Returned (acc, _, b) | Thrown _ (acc, _, b) =>
          Some {| buffer := b; handles := handles c ++ [(ACCESS_OPT_WRITE, acc)] |}
      | Undefined => None
      end
  | call_read_slot s =>
      after_access ACCESS_OPT_READ c (read_slot s BufferSlotAccess_new (buffer c))
  | call_read_newest_available =>
      after_access ACCESS_OPT_READ c
        (read_newest_available 0 [] BufferSlotAccess_new (buffer c))
  | call_consume_next_available =>
      after_access ACCESS_OPT_CONSUME c
        (consume_next_available 0 [] BufferSlotAccess_new (buffer c))
  | call_clear =>
      match clear (buffer c) with
      | Returned b | Thrown _ b => Some {| buffer := b; handles := handles c |}
      | Undefined => None
      end
  | call_destroy h =>
      '(opt, acc) ← handles c !! h;
      b ← destroy opt acc (buffer c);
      Some {| buffer := b; handles := delete h (handles c) |}
  end.

Fixpoint run (ks : list call) (c : client) : option client :=
  match ks with
  | [] => Some c
  | k :: ks' => c' ← step c k; run ks' c'
  end.

(** The states a client can bring a buffer of some size to. *)
Definition reachable (c : client) : Prop :=
  ∃ size ks, run ks (client_new size) = Some c.

(** Invariant 2 of the data model, as a decidable check: every queued index
    is the index of a dirty slot, and no index is queued twice. *)
Definition queued_dirty (b : MTCircularBuffer) : bool :=
  forallb (λ s, match desc s b with Some d => is_dirty d | None => false end)
          (dirty_slots b).

Fixpoint no_repeat (q : list N) : bool :=
  match q with
  | [] => true
  | s :: q' => negb (existsb (N.eqb s) q') && no_repeat q'
  end.

(** Another thread holds the coarse mutex (it is inside [to_string], [clear]
    or the tail of [write_next]). *)
Definition main_mtx_held (b : MTCircularBuffer) : MTCircularBuffer :=
  {| main_mtx := true; data_available := data_available b; buff := buff b;
     buff_desc := buff_desc b; dirty_slots := dirty_slots b;
     curr_w_slot := curr_w_slot b |}.

(** The vectors [buff] and [buff_desc] are built with the same size. *)
Definition aligned (b : MTCircularBuffer) : Prop :=
  length (buff b) = length (buff_desc b).

End Buffer.

Arguments MTCircularBuffer T : clear implicits.
Arguments wait_result T : clear implicits.
Arguments client T : clear implicits.

(** ** The locking discipline of a client

    What the handles in scope say about the descriptors: each handle the
    buffer has granted stands for one lock held on its slot. *)

Section Discipline.

Context {T : Type}.

Definition is_writer (opt : ACCESS_OPT) : bool :=
  match opt with ACCESS_OPT_WRITE => true | _ => false end.

(** The handle [h] is bound to slot [i], as a writer ([w = true]) or as a
    reader or consumer ([w = false]). *)
Definition holds (w : bool) (i : N) (h : ACCESS_OPT * BufferSlotAccess) : bool :=
  Bool.eqb (is_writer h.1) w && srcBuffer h.2 && (slot h.2 =? i).

(** How many handles in scope are bound to slot [i] in that way. *)
Definition holders (w : bool) (i : N) (hs : list (ACCESS_OPT * BufferSlotAccess)) : nat :=
  sum_list_with (λ h, if holds w i h then 1%nat else 0%nat) hs.

(** The descriptor [d] of slot [i] agrees with the handles in scope:
    [writing] mirrors the exclusive lock, [n_reading] counts the shared
    locks, and each lock belongs to a handle. *)
Definition slot_inv (hs : list (ACCESS_OPT * BufferSlotAccess)) (i : N)
    (d : BufferSlotDescriptor) : Prop :=
  writing d = exclusive (slot_mtx d) ∧
  n_reading d = N.of_nat (shared (slot_mtx d)) mod 2 ^ 64 ∧
  holders true i hs = (if exclusive (slot_mtx d) then 1 else 0)%nat ∧
  holders false i hs = shared (slot_mtx d) ∧
  (exclusive (slot_mtx d) = true → shared (slot_mtx d) = 0%nat).

(** A handle is as its constructor left it, or as an access method granted
    it on a slot of the buffer. *)
Definition handle_inv (n : nat) (h : ACCESS_OPT * BufferSlotAccess) : Prop :=
  h.2 = BufferSlotAccess_new ∨ ∃ s, h.2 = granted s ∧ (N.to_nat s < n)%nat.

(** The invariant of a single-threaded client of a buffer built with [n]
    slots. *)
Definition client_inv (n : nat) (c : client T) : Prop :=
  main_mtx (buffer c) = false ∧
  length (buff (buffer c)) = n ∧
  length (buff_desc (buffer c)) = n ∧
  ((N.to_nat (curr_w_slot (buffer c)) < n)%nat ∨ curr_w_slot (buffer c) = 0) ∧
  Forall (λ s, (N.to_nat s < n)%nat) (dirty_slots (buffer c)) ∧
  Forall (handle_inv n) (handles c) ∧
  ∀ i d, desc i (buffer c) = Some d → slot_inv (handles c) i d.

(** The body of the producer thread of the test suite, [k] times: take the
    next slot, let the handle go. *)
Definition producer_rounds (k : nat) : list call :=
  concat (replicate k [call_write_next; call_destroy 0]).

(** The body of the consumer thread, [k] times, with the handles it was
    given, in order.  [None] when a call runs into an out-of-range access. *)
Fixpoint consumer_rounds (k : nat) (c : client T)
    : option (list BufferSlotAccess * client T) :=
  match k with
  | O => Some ([], c)
  | S k' =>
      c1 ← step c call_consume_next_available;
      h ← last (handles c1);
      c2 ← step c1 (call_destroy (pred (length (handles c1))));
      '(l, c3) ← consumer_rounds k' c2;
      Some (h.2 :: l, c3)
  end.

End Discipline.


(** ** to_string

    The coarse mutex is taken without a deadline, so the call does not return
    while another thread holds it ([None]).  [ss << n_reading] prints the
    [size_t] in decimal. *)

Section Rendering.

Context {T : Type}.

(** What the body of the loop sends to the stream for one slot. *)
Definition slot_to_string (d : BufferSlotDescriptor) : string :=
  if writing d then " W "
  else if 0 <? n_reading d then pretty (n_reading d) +:+ "R "
  else if is_dirty d then " X "
  else " . ".

(** The stream starts as ["[ "], the loop runs over [buff_desc] in index
    order, and [" ]"] closes the line. *)
Definition to_string (b : MTCircularBuffer T) : option string :=
  if main_mtx b then None
  else Some (foldl (λ ss d, ss +:+ slot_to_string d) "[ " (buff_desc b) +:+ " ]").

End Rendering.

(** ** Concrete scenarios over [MTCircularBuffer<int>] *)

(** A buffer of one slot whose producer holds the write handle [producer_wa]. *)
Definition one_slot_being_written : MTCircularBuffer Z :=
  {| main_mtx := false; data_available := []; buff := [0%Z];
     buff_desc := [set_writing true
                     (set_slot_mtx {| exclusive := true; shared := 0 |}
                        BufferSlotDescriptor_new)];
     dirty_slots := []; curr_w_slot := 0 |}.

Definition producer_wa : BufferSlotAccess := granted 0.

(** A buffer of two slots after one round of [write_next] and release:
    slot 0 is dirty and queued, the cursor is on slot 1. *)
Definition two_slots_one_filled : MTCircularBuffer Z :=
  {| main_mtx := false; data_available := [notify_one]; buff := [0%Z; 0%Z];
     buff_desc := [set_is_dirty true BufferSlotDescriptor_new;
                   BufferSlotDescriptor_new];
     dirty_slots := [0]; curr_w_slot := 1 |}.


(** * Properties *)

Section Properties.

Context {T : Type}.
Variable T_new : T.
Implicit Types (b : MTCircularBuffer T) (acc : BufferSlotAccess)
  (d : BufferSlotDescriptor) (s i : N).

(** ** Descriptor access *)

Lemma desc_set_desc_eq i d b :
  is_Some (desc i b) → desc i (set_desc i d b) = Some d.
Proof.
  intros Hi. unfold desc, set_desc in *. simpl.
  apply list_lookup_insert_eq. by apply lookup_lt_is_Some.
Qed.

Lemma desc_set_desc_ne i j d b :
  i ≠ j → desc j (set_desc i d b) = desc j b.
Proof.
  intros Hij. unfold desc, set_desc. simpl.
  apply list_lookup_insert_ne. lia.
Qed.

(** Letting go of a lock changes at most the mutex of a descriptor. *)
Lemma desc_drop_lock f l b i d :
  desc i b = Some d →
  ∃ m, desc i (drop_lock f l b) = Some (set_slot_mtx m d).
Proof.
  intros Hd. destruct l as [k|]; simpl.
  - unfold desc in *. simpl.
    destruct (decide (N.to_nat k = N.to_nat i)) as [->|Hne].
    + rewrite list_lookup_alter_eq, Hd. simpl. eauto.
    + rewrite list_lookup_alter_ne, Hd by done.
      exists (slot_mtx d). by destruct d.
  - exists (slot_mtx d). rewrite Hd. by destruct d.
Qed.

Lemma desc_drop_lock_None f l b i :
  desc i b = None → desc i (drop_lock f l b) = None.
Proof.
  intros Hd. destruct l as [k|]; simpl; [|done].
  unfold desc in *. simpl.
  apply lookup_ge_None. rewrite length_alter. by apply lookup_ge_None.
Qed.

Lemma drop_lock_frame f l b :
  main_mtx (drop_lock f l b) = main_mtx b ∧
  data_available (drop_lock f l b) = data_available b ∧
  buff (drop_lock f l b) = buff b ∧
  dirty_slots (drop_lock f l b) = dirty_slots b ∧
  curr_w_slot (drop_lock f l b) = curr_w_slot b ∧
  length (buff_desc (drop_lock f l b)) = length (buff_desc b).
Proof.
  destruct l; simpl; repeat split; try done. apply length_alter.
Qed.

Lemma size_t_incr_decr n : size_t_range n → size_t_decr (size_t_incr n) = n.
Proof.
  unfold size_t_range, size_t_incr, size_t_decr, SIZE_MAX. intros Hn.
  destruct (decide (n + 1 = 2 ^ 64)) as [Heq|Hne].
  - rewrite Heq, N.Div0.mod_same. simpl (0 + _).
    rewrite N.mod_small by lia. lia.
  - rewrite (N.mod_small (n + 1)) by lia.
    replace (n + 1 + (2 ^ 64 - 1)) with (n + 1 * 2 ^ 64) by lia.
    rewrite N.Div0.mod_add. apply N.mod_small. lia.
Qed.

(** ** Construction *)

(** C5: after construction with capacity [size], every slot [i < size] has a
    descriptor whose [writing] is false, whose [n_reading] is 0 and whose
    [is_dirty] is false. *)
Theorem constructor_zeroes_descriptors (size i : N) :
  i < size →
  ∃ d, desc i (MTCircularBuffer_new T_new size) = Some d ∧
       writing d = false ∧ n_reading d = 0 ∧ is_dirty d = false.
Proof.
  intros Hi. exists BufferSlotDescriptor_new. split; [|done].
  unfold desc, MTCircularBuffer_new. simpl.
  rewrite list_lookup_fmap, lookup_seq_lt by lia. done.
Qed.

(** ** write_next *)

(** The two exits of [write_next] that throw, and the one that returns, in
    terms of what the call finds: the descriptor under the cursor, the state
    of its mutex and the state of the coarse mutex. *)
Lemma write_next_slot_timeout acc ow b d :
  desc (curr_w_slot b) b = Some d →
  timed_lock (slot_mtx d) = None →
  write_next acc ow b = Thrown SlotAcqTimeout (acc, ow, b).
Proof. intros Hd Hl. unfold write_next. by rewrite Hd, Hl. Qed.

Lemma write_next_inv acc ow b r :
  write_next acc ow b = Returned r →
  ∃ d um,
    desc (curr_w_slot b) b = Some d ∧
    timed_lock (slot_mtx d) = Some um ∧
    is_Some (buff b !! N.to_nat (curr_w_slot b)) ∧
    main_mtx b = false ∧
    r = (granted (curr_w_slot b), (λ _, is_dirty d) <$> ow,
         set_curr_w_slot (size_t_incr (curr_w_slot b) mod size b)
           (drop_lock unlock (slot_lock acc)
              (set_desc (curr_w_slot b) (set_writing true (set_slot_mtx um d)) b))).
Proof.
  unfold write_next. intros H.
  destruct (desc (curr_w_slot b) b) as [d|] eqn:Hd; [|done].
  destruct (timed_lock (slot_mtx d)) as [um|] eqn:Hl; [|done].
  destruct (buff b !! N.to_nat (curr_w_slot b)) as [x|] eqn:Hx; [|done].
  set (b1 := set_desc _ _ b) in *.
  destruct (drop_lock_frame unlock (slot_lock acc) b1) as (Hm & _ & Hb & _ & Hc & _).
  rewrite Hm in H. simpl in H.
  destruct (main_mtx b) eqn:Hmm; [done|].
  unfold size in H. rewrite Hb, Hc in H. simpl in H.
  destruct (N.of_nat (length (buff b)) =? 0); [done|].
  exists d, um. repeat split; eauto. by inversion H.
Qed.

(** C4: when [write_next] returns, the handle is bound to the slot under the
    write cursor (index, cell pointer, back pointer and lock), that slot's
    [writing] is true, the cursor has moved to [(cursor + 1) mod N], and a
    supplied [overwrite_occurred] holds the slot's earlier [is_dirty]. *)
Theorem write_next_returned acc ow b acc' ow' b' :
  size_t_range (size b) →
  write_next acc ow b = Returned (acc', ow', b') →
  ∃ d d',
    desc (curr_w_slot b) b = Some d ∧
    slot acc' = curr_w_slot b ∧
    data acc' = Some (curr_w_slot b) ∧
    srcBuffer acc' = true ∧
    slot_lock acc' = Some (curr_w_slot b) ∧
    desc (curr_w_slot b) b' = Some d' ∧
    writing d' = true ∧
    is_written (curr_w_slot b) b' = true ∧
    curr_w_slot b' = (curr_w_slot b + 1) mod size b ∧
    (∀ v, ow = Some v → ow' = Some (is_dirty d)).
Proof.
  intros Hsz H.
  destruct (write_next_inv _ _ _ _ H) as (d & um & Hd & Hl & Hx & Hm & Hr).
  inversion Hr; subst acc' ow' b'; clear Hr.
  set (w := curr_w_slot b) in *.
  set (b1 := set_desc w (set_writing true (set_slot_mtx um d)) b).
  assert (Hd1 : desc w b1 = Some (set_writing true (set_slot_mtx um d)))
    by (apply desc_set_desc_eq; eauto).
  destruct (desc_drop_lock unlock (slot_lock acc) b1 w _ Hd1) as [m Hd2].
  assert (Hw : w < size b).
  { apply lookup_lt_is_Some in Hx. unfold size. lia. }
  exists d, (set_slot_mtx m (set_writing true (set_slot_mtx um d))).
  repeat split; try done.
  - unfold is_written.
    destruct (drop_lock_frame unlock (slot_lock acc) b1) as (_ & _ & _ & _ & _ & Hlen).
    change (desc w (set_curr_w_slot _ ?x)) with (desc w x).
    rewrite Hd2. simpl.
    apply lookup_lt_Some in Hd2.
    destruct (N.ltb_spec w (N.of_nat (length (buff_desc (drop_lock unlock (slot_lock acc) b1)))));
      [done|lia].
  - simpl. unfold size_t_incr. unfold size_t_range in Hsz.
    by rewrite (N.mod_small (w + 1)) by lia.
  - intros v ->. done.
Qed.

(** ** clear *)

Lemma clear_inv b b' :
  clear b = Returned b' →
  main_mtx b = false ∧ b' = set_curr_w_slot 0 (set_dirty_slots [] b).
Proof. unfold clear. destruct (main_mtx b); [done|]. by inversion 1. Qed.


(** C8: when [clear] returns, [num_consumable_slots] is 0 and the write cursor
    is 0, so a [write_next] that then returns has bound slot 0. *)
Theorem clear_resets b b' :
  clear b = Returned b' →
  num_consumable_slots b' = 0 ∧
  curr_w_slot b' = 0 ∧
  ∀ acc ow acc' ow' b'',
    write_next acc ow b' = Returned (acc', ow', b'') →
    slot acc' = 0 ∧ data acc' = Some 0 ∧ is_written 0 b'' = true.
Proof.
  intros [_ ->]%clear_inv. repeat split; try done;
    apply write_next_inv in H as (d & um & Hd & _ & _ & _ & Hr);
    inversion Hr; subst; clear Hr; try done.
  simpl curr_w_slot in *.
  set (b0 := set_curr_w_slot 0 (set_dirty_slots [] b)) in *.
  set (b1 := set_desc 0 (set_writing true (set_slot_mtx um d)) b0).
  assert (Hd1 : desc 0 b1 = Some (set_writing true (set_slot_mtx um d)))
    by (apply desc_set_desc_eq; eauto).
  destruct (desc_drop_lock unlock (slot_lock acc) b1 0 _ Hd1) as [m Hd2].
  unfold is_written.
  change (desc 0 (set_curr_w_slot _ ?x)) with (desc 0 x).
  rewrite Hd2. simpl.
  apply lookup_lt_Some in Hd2.
  match goal with |- (if ?c then _ else _) = _ => destruct c eqn:Hc end; [done|].
  apply N.ltb_ge in Hc. simpl in *. lia.
Qed.

(** C9: [clear] changes the dirty-slot queue and the write cursor and nothing
    else; every descriptor keeps its [writing], [n_reading] and [is_dirty].
    So when slot 0 was dirty before [clear], the [write_next] that follows
    still reports an overwrite, although the queue is empty. *)
Theorem clear_keeps_descriptors b b' :
  clear b = Returned b' →
  buff_desc b' = buff_desc b ∧
  (∀ i, desc i b' = desc i b) ∧
  buff b' = buff b ∧
  main_mtx b' = main_mtx b ∧
  data_available b' = data_available b ∧
  dirty_slots b' = [] ∧
  ∀ d acc v acc' ow' b'',
    desc 0 b = Some d → is_dirty d = true →
    write_next acc (Some v) b' = Returned (acc', ow', b'') →
    ow' = Some true.
Proof.
  intros [_ ->]%clear_inv. repeat split; try done.
  intros d acc v acc' ow' b'' Hd Hdirty H.
  apply write_next_inv in H as (d' & um & Hd' & _ & _ & _ & Hr).
  simpl curr_w_slot in Hd'.
  change (desc 0 (set_curr_w_slot 0 (set_dirty_slots [] b))) with (desc 0 b) in Hd'.
  rewrite Hd in Hd'. inversion Hd'; subst d'.
  inversion Hr. simpl. by rewrite Hdirty.
Qed.

(** ** Indexing without a check *)

Lemma grant_shared_defined s um d acc b :
  grant_shared s um d acc b = Undefined ↔ buff b !! N.to_nat s = None.
Proof. unfold grant_shared. by destruct (buff b !! N.to_nat s). Qed.

(** C10: [read_slot] and [write_next] index [buff_desc] and [buff] with no
    check, unlike the observers.  On a buffer whose two vectors have the same
    length, [read_slot] runs into an out-of-range access exactly when its
    argument is not below the size, and [write_next] exactly when the cursor
    is not; on a freshly built buffer that is exactly the size 0.  The
    observers answer [false] and 0 out of range. *)
Theorem unchecked_indexing s acc ow b :
  aligned b →
  (read_slot s acc b = Undefined ↔ size b ≤ s) ∧
  (write_next acc ow b = Undefined ↔ size b ≤ curr_w_slot b) ∧
  (size b = 0 → write_next acc ow b = Undefined) ∧
  (∀ n, write_next acc ow (MTCircularBuffer_new T_new n) = Undefined ↔ n = 0) ∧
  (size b ≤ s →
     is_written s b = false ∧ is_read s b = false ∧ num_concurrent_read s b = 0).
Proof.
  intros Hal. unfold aligned in Hal.
  assert (Hrs : read_slot s acc b = Undefined ↔ size b ≤ s).
  { unfold read_slot, size, desc.
    destruct (buff_desc b !! N.to_nat s) as [d|] eqn:Hd.
    - apply lookup_lt_Some in Hd.
      destruct (timed_lock_shared (slot_mtx d)) as [um|].
      + rewrite grant_shared_defined, lookup_ge_None. lia.
      + split; [done|lia].
    - apply lookup_ge_None in Hd. split; [lia|done]. }
  assert (Hwn : ∀ b0 : MTCircularBuffer T, length (buff b0) = length (buff_desc b0) →
            write_next acc ow b0 = Undefined ↔ size b0 ≤ curr_w_slot b0).
  { clear. intros b Hal. unfold write_next, size, desc.
    destruct (buff_desc b !! N.to_nat (curr_w_slot b)) as [d|] eqn:Hd.
    - pose proof (lookup_lt_Some _ _ _ Hd) as Hlt.
      destruct (timed_lock (slot_mtx d)) as [um|]; [|split; [done|lia]].
      destruct (buff b !! N.to_nat (curr_w_slot b)) as [x|] eqn:Hx.
      + set (b1 := set_desc _ _ b).
        destruct (drop_lock_frame unlock (slot_lock acc) b1) as (_ & _ & Hb & _ & _ & _).
        destruct (main_mtx _); [split; [done|lia]|].
        rewrite Hb. simpl.
        destruct (N.eqb_spec (N.of_nat (length (buff b))) 0); [lia|].
        split; [done|lia].
      + apply lookup_ge_None in Hx. lia.
    - apply lookup_ge_None in Hd. split; [lia|done]. }
  split; [done|]. split; [by apply Hwn|]. split.
  { intros Hz. apply Hwn; [done|]. lia. }
  split.
  { intros n. rewrite Hwn.
    - unfold size. simpl. rewrite length_replicate. lia.
    - simpl. by rewrite length_replicate, length_fmap, length_seq. }
  intros Hs. unfold is_read, num_concurrent_read, is_written, size in *.
  destruct (N.ltb_spec s (N.of_nat (length (buff_desc b)))); [lia|done].
Qed.

(** ** Waiting and consuming *)

Lemma wait_data_available_nonempty deadline now pending b :
  dirty_slots b ≠ [] →
  wait_data_available deadline now pending b = Available now pending b.
Proof. destruct pending; simpl; by destruct (dirty_slots b). Qed.

Lemma wait_data_available_quiet deadline now b now' pending' bw :
  wait_data_available deadline now [] b = Available now' pending' bw → bw = b.
Proof. simpl. destruct (dirty_slots b); [done|]. by inversion 1. Qed.


(** C6: with a non-empty queue [consume_next_available] goes for the front
    entry [s].  When the shared lock of slot [s] cannot be had, the call
    raises [notify_all] and throws [SlotAcqTimeout] with the queue, the
    descriptors, the cursor and the handle as they were; when it can, the
    call returns a handle on [s] and the queue has lost its front entry. *)
Theorem consume_next_available_front now pending acc b s rest d :
  dirty_slots b = s :: rest →
  desc s b = Some d →
  (timed_lock_shared (slot_mtx d) = None →
     ∃ b', consume_next_available now pending acc b = Thrown SlotAcqTimeout (acc, b') ∧
           dirty_slots b' = s :: rest ∧
           data_available b' = data_available b ++ [notify_all] ∧
           buff_desc b' = buff_desc b ∧
           curr_w_slot b' = curr_w_slot b) ∧
  (is_Some (timed_lock_shared (slot_mtx d)) →
     is_Some (buff b !! N.to_nat s) →
     ∃ b', consume_next_available now pending acc b = Returned (granted s, b') ∧
           dirty_slots b' = rest ∧
           data_available b' = data_available b).
Proof.
  intros Hq Hd. unfold consume_next_available.
  rewrite wait_data_available_nonempty by (by rewrite Hq).
  rewrite Hq, Hd. split.
  - intros ->. eexists. split; [done|]. by simpl.
  - intros [um ->] [x Hx]. unfold grant_shared. simpl. rewrite Hx.
    eexists. split; [done|].
    match goal with |- context [drop_lock ?f ?l ?b0] =>
      destruct (drop_lock_frame f l b0) as (_ & Hs & _ & Hq' & _) end.
    by rewrite Hq', Hs.
Qed.

Lemma consume_next_available_inv now pending acc b acc' b' :
  consume_next_available now pending acc b = Returned (acc', b') →
  ∃ now' pending' bw s rest d um,
    wait_data_available consume_next_available_deadline now pending b
      = Available now' pending' bw ∧
    dirty_slots bw = s :: rest ∧
    desc s bw = Some d ∧
    timed_lock_shared (slot_mtx d) = Some um ∧
    acc' = granted s ∧
    b' = drop_lock unlock_shared (slot_lock acc)
           (set_desc s (set_n_reading (size_t_incr (n_reading d)) (set_slot_mtx um d))
              (set_dirty_slots rest bw)).
Proof.
  unfold consume_next_available. intros H.
  destruct (wait_data_available _ now pending b) as [now' pending' bw| |]; [|done..].
  destruct (dirty_slots bw) as [|s rest] eqn:Hq; [done|].
  destruct (desc s bw) as [d|] eqn:Hd; [|done].
  destruct (timed_lock_shared (slot_mtx d)) as [um|] eqn:Hl; [|done].
  unfold grant_shared in H.
  destruct (buff _ !! N.to_nat s); [|done].
  inversion H; subst. by exists now', pending', bw, s, rest, d, um.
Qed.

(** C7: after [consume_next_available] has returned and the consume handle
    has gone out of scope, the consumed slot is not dirty, its [n_reading] is
    what it was before, and [num_consumable_slots] is one less than when the
    wait for data ended (the call state itself when no producer was pending
    or the queue was not empty).  The entry left the queue at acquisition;
    the release changes that slot's descriptor and nothing else. *)
Theorem consume_next_available_release now pending acc b acc' b' :
  consume_next_available now pending acc b = Returned (acc', b') →
  ∃ now' pending' bw d0 b'' d2,
    wait_data_available consume_next_available_deadline now pending b
      = Available now' pending' bw ∧
    (pending = [] ∨ dirty_slots b ≠ [] → bw = b) ∧
    head (dirty_slots bw) = Some (slot acc') ∧
    desc (slot acc') bw = Some d0 ∧
    num_consumable_slots b' + 1 = num_consumable_slots bw ∧
    destroy ACCESS_OPT_CONSUME acc' b' = Some b'' ∧
    desc (slot acc') b'' = Some d2 ∧
    is_dirty d2 = false ∧
    (size_t_range (n_reading d0) → n_reading d2 = n_reading d0) ∧
    num_consumable_slots b'' + 1 = num_consumable_slots bw ∧
    dirty_slots b'' = dirty_slots b' ∧
    curr_w_slot b'' = curr_w_slot b' ∧
    data_available b'' = data_available b' ∧
    buff b'' = buff b' ∧
    (∀ j, j ≠ slot acc' → desc j b'' = desc j b').
Proof.
  intros H.
  destruct (consume_next_available_inv _ _ _ _ _ _ H)
    as (now' & pending' & bw & s & rest & d & um & Hw & Hq & Hd & Hl & -> & ->).
  set (d1 := set_n_reading (size_t_incr (n_reading d)) (set_slot_mtx um d)).
  set (b1 := set_desc s d1 (set_dirty_slots rest bw)).
  assert (Hd1 : desc s b1 = Some d1) by (apply desc_set_desc_eq; eauto).
  destruct (desc_drop_lock unlock_shared (slot_lock acc) b1 s _ Hd1) as [m Hd2].
  destruct (drop_lock_frame unlock_shared (slot_lock acc) b1) as (_ & _ & _ & Hq1 & _ & _).
  set (b2 := drop_lock unlock_shared (slot_lock acc) b1) in *.
  set (d3 := set_n_reading (size_t_decr (n_reading (set_slot_mtx m d1)))
               (set_is_dirty false (set_slot_mtx m d1))).
  set (b3 := set_desc s d3 b2).
  assert (Hrel : release_slot_access_C (granted s) b2 = Some b3).
  { unfold release_slot_access_C. simpl slot. by rewrite Hd2. }
  assert (Hd3 : desc s b3 = Some d3) by (apply desc_set_desc_eq; eauto).
  destruct (desc_drop_lock unlock_shared (Some s) b3 s _ Hd3) as [m' Hd4].
  exists now', pending', bw, d, (drop_lock unlock_shared (Some s) b3), (set_slot_mtx m' d3).
  split; [done|]. split.
  { intros [->|Hne].
    - by eapply wait_data_available_quiet.
    - rewrite wait_data_available_nonempty in Hw by done. by inversion Hw. }
  split; [by rewrite Hq|]. split; [done|]. split.
  { unfold num_consumable_slots. rewrite Hq1. simpl. rewrite Hq. simpl. lia. }
  split.
  { unfold destroy. simpl srcBuffer. cbv iota.
    change (release_slot_access ACCESS_OPT_CONSUME) with (@release_slot_access_C T).
    by rewrite Hrel. }
  split; [done|]. split; [done|]. split.
  { intros Hr. simpl. by apply size_t_incr_decr. }
  split.
  { unfold num_consumable_slots. simpl. rewrite Hq1. simpl. rewrite Hq. simpl. lia. }
  repeat split; try done.
  intros j Hj. simpl slot in Hj. unfold desc. simpl.
  rewrite list_lookup_alter_ne by lia.
  rewrite list_lookup_insert_ne by lia. done.
Qed.

(** ** Timeouts *)


(** The second throw of [write_next] comes after the handle has been bound
    and [writing] set. *)
Lemma write_next_main_mtx_timeout acc ow b d um :
  desc (curr_w_slot b) b = Some d →
  timed_lock (slot_mtx d) = Some um →
  is_Some (buff b !! N.to_nat (curr_w_slot b)) →
  main_mtx b = true →
  ∃ b', write_next acc ow b
          = Thrown SlotAcqTimeout (granted (curr_w_slot b), (λ _, is_dirty d) <$> ow, b') ∧
        is_written (curr_w_slot b) b' = true ∧
        curr_w_slot b' = curr_w_slot b ∧
        dirty_slots b' = dirty_slots b.
Proof.
  intros Hd Hl [x Hx] Hm. unfold write_next. rewrite Hd, Hl, Hx.
  set (w := curr_w_slot b).
  set (b1 := set_desc w (set_writing true (set_slot_mtx um d)) b).
  destruct (drop_lock_frame unlock (slot_lock acc) b1) as (Hm' & _ & _ & Hq & Hc & _).
  rewrite Hm'. simpl main_mtx. rewrite Hm.
  eexists. split; [done|]. split; [|by rewrite Hc, Hq].
  assert (Hd1 : desc w b1 = Some (set_writing true (set_slot_mtx um d)))
    by (apply desc_set_desc_eq; eauto).
  destruct (desc_drop_lock unlock (slot_lock acc) b1 w _ Hd1) as [m Hd2].
  unfold is_written. rewrite Hd2. simpl.
  apply lookup_lt_Some in Hd2.
  match goal with |- (if ?c then _ else _) = _ => destruct c eqn:Hc' end; [done|].
  apply N.ltb_ge in Hc'. lia.
Qed.

(** ** Release of a write handle *)

(** The slot is queued whatever its [is_dirty] was. *)
Lemma release_slot_access_W_appends acc b b' :
  release_slot_access_W acc b = Some b' →
  dirty_slots b' = dirty_slots b ++ [slot acc] ∧
  data_available b' = data_available b ++ [notify_one].
Proof.
  unfold release_slot_access_W. destruct (desc (slot acc) b); [|done].
  simpl. by inversion 1.
Qed.

(** ** The wait of read_newest_available *)

(** With an empty queue the wait is over at the instant it starts, whatever
    the producers are about to do. *)
Lemma read_newest_available_empty now pending acc b :
  dirty_slots b = [] →
  Forall (λ e, (now ≤ e.1)%Z) pending →
  wait_data_available read_newest_available_deadline now pending b = TimedOut now b ∧
  read_newest_available now pending acc b = Thrown DataAvailableTimeout (acc, b).
Proof.
  intros Hq Hp.
  assert (Hw : wait_data_available read_newest_available_deadline now pending b
               = TimedOut now b).
  { unfold read_newest_available_deadline.
    destruct Hp as [|[t p] pending Ht _]; simpl; rewrite Hq, Z.max_id; [done|].
    simpl in Ht. by destruct (Z.ltb_spec t now); [lia|]. }
  split; [done|]. unfold read_newest_available. by rewrite Hw.
Qed.

(** [consume_next_available] does wait for the whole of [lock_timeout]. *)
Lemma consume_next_available_waits now b :
  dirty_slots b = [] →
  wait_data_available consume_next_available_deadline now [] b
    = TimedOut (now + 1000)%Z b.
Proof.
  intros Hq. simpl. rewrite Hq.
  unfold consume_next_available_deadline, lock_timeout, DEFAULT_LOCK_TIMEOUT_SEC.
  f_equal. lia.
Qed.

End Properties.

(** * The scenarios of the test suite

    The single-threaded scenarios of [MTCircularBufferTEST.cpp], run on the
    model. *)

Example test_construct :
  let buff := MTCircularBuffer_new 0%Z 5 in
  size buff = 5 ∧ is_read 0 buff = false ∧ is_written 0 buff = false ∧
  is_written 6 buff = false ∧ is_read 6 buff = false ∧
  num_consumable_slots buff = 0.
Proof. repeat split; reflexivity. Qed.

Example test_write_all_slots :
  ∃ c, run (replicate 5 call_write_next) (client_new 0%Z 5) = Some c ∧
       handles c = (λ i, (ACCESS_OPT_WRITE, granted i)) <$> [0; 1; 2; 3; 4] ∧
       (λ i, is_written i (buffer c)) <$> [0; 1; 2; 3; 4] = replicate 5 true ∧
       curr_w_slot (buffer c) = 0.
Proof. eexists. repeat split; reflexivity. Qed.

Example test_clear :
  ∃ c c', run [call_write_next; call_destroy 0] (client_new 0%Z 5) = Some c ∧
          num_consumable_slots (buffer c) = 1 ∧
          step c call_clear = Some c' ∧
          num_consumable_slots (buffer c') = 0.
Proof. do 2 eexists. repeat split; reflexivity. Qed.

(** A second writer on a buffer of one slot times out until the first handle
    is destroyed. *)
Example test_double_write :
  ∃ b b',
    write_next BufferSlotAccess_new None (MTCircularBuffer_new 0%Z 1)
      = Returned (granted 0, None, b) ∧
    is_written 0 b = true ∧
    write_next BufferSlotAccess_new None b
      = Thrown SlotAcqTimeout (BufferSlotAccess_new, None, b) ∧
    destroy ACCESS_OPT_WRITE (granted 0) b = Some b' ∧
    is_written 0 b' = false ∧
    ∃ b'', write_next BufferSlotAccess_new None b' = Returned (granted 0, None, b'') ∧
           is_written 0 b'' = true.
Proof. do 2 eexists. repeat split; try reflexivity. eexists. split; reflexivity. Qed.

(** A reader is kept out by the writer; two readers share the slot once the
    writer is gone. *)
Example test_read_blocked_by_writer :
  ∃ b' c,
    read_slot 0 BufferSlotAccess_new one_slot_being_written
      = Thrown SlotAcqTimeout (BufferSlotAccess_new, one_slot_being_written) ∧
    destroy ACCESS_OPT_WRITE producer_wa one_slot_being_written = Some b' ∧
    run [call_read_slot 0; call_read_slot 0] {| buffer := b'; handles := [] |} = Some c ∧
    handles c = [(ACCESS_OPT_READ, granted 0); (ACCESS_OPT_READ, granted 0)] ∧
    num_concurrent_read 0 (buffer c) = 2.
Proof. do 2 eexists. repeat split; reflexivity. Qed.

Example test_consume_without_data :
  let buff := MTCircularBuffer_new 0%Z 5 in
  consume_next_available 0 [] BufferSlotAccess_new buff
    = Thrown DataAvailableTimeout (BufferSlotAccess_new, buff).
Proof. reflexivity. Qed.

Example test_produce_then_consume :
  ∃ c c',
    run [call_write_next; call_destroy 0] (client_new 0%Z 5) = Some c ∧
    num_consumable_slots (buffer c) = 1 ∧
    step c call_consume_next_available = Some c' ∧
    handles c' = [(ACCESS_OPT_CONSUME, granted 0)] ∧
    num_consumable_slots (buffer c') = 0.
Proof. do 2 eexists. repeat split; reflexivity. Qed.

(** A consumer that finds the front slot locked by the producer raises
    [notify_all] and leaves the queue alone. *)
Example test_consume_blocked_by_writer :
  ∃ c, run [call_write_next; call_destroy 0; call_write_next;
            call_consume_next_available] (client_new 0%Z 1) = Some c ∧
       handles c = [(ACCESS_OPT_WRITE, granted 0);
                    (ACCESS_OPT_CONSUME, BufferSlotAccess_new)] ∧
       dirty_slots (buffer c) = [0] ∧
       data_available (buffer c) = [notify_one; notify_all].
Proof. eexists. repeat split; reflexivity. Qed.

(** * Where the code departs from its contract *)

(** C1: a buffer of two slots, just built, whose coarse mutex another thread
    holds.  [write_next] takes the lock of slot 0, binds the handle, sets
    [writing], and only then fails on the coarse mutex: it throws
    [SlotAcqTimeout] with the handle bound and slot 0 marked as written.
    When that handle goes out of scope slot 0 is queued as dirty, with the
    cursor still on it. *)
Theorem write_next_coarse_timeout_is_partial :
  let b := main_mtx_held (MTCircularBuffer_new 0%Z 2) in
  ∃ b' b'',
    write_next BufferSlotAccess_new (Some false) b
      = Thrown SlotAcqTimeout (granted 0, Some false, b') ∧
    granted 0 ≠ BufferSlotAccess_new ∧
    srcBuffer (granted 0) = true ∧
    is_written 0 b = false ∧ is_written 0 b' = true ∧
    curr_w_slot b' = 0 ∧
    destroy ACCESS_OPT_WRITE (granted 0) b' = Some b'' ∧
    dirty_slots b'' = [0] ∧ curr_w_slot b'' = 0.
Proof. simpl. do 2 eexists. repeat split; try reflexivity. discriminate. Qed.

(** C2: on a buffer of one slot, two rounds of [write_next] and release lead
    to a reachable state in which slot 0 is queued twice, so that
    [num_consumable_slots] is 2 for a buffer of size 1; one round of consume
    and release later the queue still holds slot 0, which is no longer
    dirty. *)
Theorem write_release_queues_slot_again :
  let ks := [call_write_next; call_destroy 0; call_write_next; call_destroy 0] in
  ∃ c c',
    run ks (client_new 0%Z 1) = Some c ∧
    reachable 0%Z c ∧
    dirty_slots (buffer c) = [0; 0] ∧
    no_repeat (dirty_slots (buffer c)) = false ∧
    num_consumable_slots (buffer c) = 2 ∧ size (buffer c) = 1 ∧
    run (ks ++ [call_consume_next_available; call_destroy 0]) (client_new 0%Z 1)
      = Some c' ∧
    reachable 0%Z c' ∧
    dirty_slots (buffer c') = [0] ∧
    (is_dirty <$> desc 0 (buffer c')) = Some false ∧
    queued_dirty (buffer c') = false.
Proof.
  simpl. do 2 eexists. split; [reflexivity|]. split.
  { exists 1, [call_write_next; call_destroy 0; call_write_next; call_destroy 0].
    reflexivity. }
  do 4 (split; [reflexivity|]). split; [reflexivity|]. split.
  { exists 1, [call_write_next; call_destroy 0; call_write_next; call_destroy 0;
               call_consume_next_available; call_destroy 0].
    reflexivity. }
  repeat split; reflexivity.
Qed.

(** C3: a buffer of one slot whose producer holds the write handle and lets
    it go 500 ms after the call.  [read_newest_available] hands
    [timed_wait] the current time as its deadline, so the wait is over at
    time 0 and the call throws [DataAvailableTimeout], although the slot is
    filled well within the second; [consume_next_available], which adds
    [lock_timeout] to the current time, is woken by the producer and
    returns a handle on slot 0. *)
Theorem read_newest_available_gives_up_at_once :
  let pending := [(500%Z, producer_wa)] in
  write_next BufferSlotAccess_new None (MTCircularBuffer_new 0%Z 1)
    = Returned (producer_wa, None, one_slot_being_written) ∧
  dirty_slots one_slot_being_written = [] ∧
  (read_newest_available_deadline 0 - 0 = 0)%Z ∧
  (consume_next_available_deadline 0 - 0 = 1000)%Z ∧
  wait_data_available read_newest_available_deadline 0 pending one_slot_being_written
    = TimedOut 0 one_slot_being_written ∧
  read_newest_available 0 pending BufferSlotAccess_new one_slot_being_written
    = Thrown DataAvailableTimeout (BufferSlotAccess_new, one_slot_being_written) ∧
  ∃ b', consume_next_available 0 pending BufferSlotAccess_new one_slot_being_written
          = Returned (granted 0, b').
Proof. simpl. repeat split; try reflexivity. eexists. reflexivity. Qed.
(** * The theorems at work on the scenarios *)

Lemma two_slots_one_filled_reachable :
  buffer <$> run [call_write_next; call_destroy 0] (client_new 0%Z 2)
    = Some two_slots_one_filled.
Proof. reflexivity. Qed.

Lemma constructor_zeroes_descriptors_witness :
  3 < 5 ∧
  ∃ d, desc 3 (MTCircularBuffer_new 0%Z 5) = Some d ∧
       writing d = false ∧ n_reading d = 0 ∧ is_dirty d = false.
Proof.
  split; [reflexivity|].
  apply (constructor_zeroes_descriptors 0%Z 5 3). reflexivity.
Defined.

Lemma write_next_returned_witness :
  ∃ b',
    size_t_range (size two_slots_one_filled) ∧
    write_next BufferSlotAccess_new (Some false) two_slots_one_filled
      = Returned (granted 1, Some false, b') ∧
    slot (granted 1) = 1 ∧
    is_written 1 b' = true ∧
    curr_w_slot b' = 0.
Proof.
  eexists. split; [reflexivity|]. split; [reflexivity|].
  destruct (write_next_returned BufferSlotAccess_new (Some false)
              two_slots_one_filled (granted 1) (Some false) _
              eq_refl eq_refl)
    as (d & d' & _ & Hs & _ & _ & _ & _ & _ & Hw & Hc & _).
  split; [exact Hs|]. split; [exact Hw|exact Hc].
Defined.

(** The front entry is slot 0, whose mutex is free: the consumer gets it. *)
Lemma consume_next_available_front_witness :
  dirty_slots two_slots_one_filled = [0] ∧
  desc 0 two_slots_one_filled = Some (set_is_dirty true BufferSlotDescriptor_new) ∧
  ∃ b', consume_next_available 0 [] BufferSlotAccess_new two_slots_one_filled
          = Returned (granted 0, b') ∧
        dirty_slots b' = [] ∧
        data_available b' = data_available two_slots_one_filled.
Proof.
  split; [reflexivity|]. split; [reflexivity|].
  apply (consume_next_available_front 0 [] BufferSlotAccess_new
           two_slots_one_filled 0 [] (set_is_dirty true BufferSlotDescriptor_new)
           eq_refl eq_refl).
  - by eexists.
  - by eexists.
Defined.

Lemma consume_next_available_release_witness :
  ∃ b',
    consume_next_available 0 [] BufferSlotAccess_new two_slots_one_filled
      = Returned (granted 0, b') ∧
    ∃ b'' d2,
      destroy ACCESS_OPT_CONSUME (granted 0) b' = Some b'' ∧
      desc 0 b'' = Some d2 ∧
      is_dirty d2 = false ∧
      n_reading d2 = 0 ∧
      num_consumable_slots b'' + 1 = num_consumable_slots two_slots_one_filled.
Proof.
  eexists. split; [reflexivity|].
  destruct (consume_next_available_release 0 [] BufferSlotAccess_new
              two_slots_one_filled (granted 0) _ eq_refl)
    as (now' & pending' & bw & d0 & b'' & d2 & Hw & Hbw & _ & Hd0 & _ & Hdes & Hd2
        & Hdirty & Hn & Hnum & _).
  rewrite (Hbw (or_introl eq_refl)) in Hd0, Hnum.
  inversion Hd0; subst d0.
  exists b'', d2. repeat split; try done. by apply Hn.
Defined.

Lemma clear_resets_witness :
  ∃ b',
    clear two_slots_one_filled = Returned b' ∧
    num_consumable_slots two_slots_one_filled = 1 ∧
    curr_w_slot two_slots_one_filled = 1 ∧
    num_consumable_slots b' = 0 ∧
    curr_w_slot b' = 0 ∧
    ∀ acc ow acc' ow' b'',
      write_next acc ow b' = Returned (acc', ow', b'') →
      slot acc' = 0 ∧ data acc' = Some 0 ∧ is_written 0 b'' = true.
Proof.
  eexists. split; [reflexivity|]. split; [reflexivity|]. split; [reflexivity|].
  apply (clear_resets two_slots_one_filled). reflexivity.
Defined.

(** Slot 0 is dirty and queued; after [clear] the queue is empty and the
    write that follows reports an overwrite. *)
Lemma clear_keeps_descriptors_witness :
  ∃ b' b'',
    clear two_slots_one_filled = Returned b' ∧
    buff_desc b' = buff_desc two_slots_one_filled ∧
    dirty_slots b' = [] ∧
    write_next BufferSlotAccess_new (Some false) b'
      = Returned (granted 0, Some true, b'').
Proof.
  do 2 eexists. split; [reflexivity|].
  destruct (clear_keeps_descriptors two_slots_one_filled _ eq_refl)
    as (Hd & _ & _ & _ & _ & Hq & _).
  split; [exact Hd|]. split; [exact Hq|]. reflexivity.
Defined.

Lemma unchecked_indexing_witness :
  aligned two_slots_one_filled ∧
  read_slot 6 BufferSlotAccess_new two_slots_one_filled = Undefined ∧
  is_written 6 two_slots_one_filled = false ∧
  is_read 6 two_slots_one_filled = false ∧
  write_next BufferSlotAccess_new None (MTCircularBuffer_new 0%Z 0) = Undefined.
Proof.
  split; [reflexivity|].
  destruct (unchecked_indexing 0%Z 6 BufferSlotAccess_new None
              two_slots_one_filled eq_refl)
    as (Hr & _ & _ & Hn & Ho).
  split; [apply Hr; discriminate|].
  destruct Ho as (Hw & Hrd & _); [discriminate|].
  split; [exact Hw|]. split; [exact Hrd|]. by apply Hn.
Defined.

(** * The locking discipline *)

Section Discipline_facts.

Context {T : Type}.
Variable T_new : T.
Implicit Types (b : MTCircularBuffer T) (c : client T) (acc : BufferSlotAccess)
  (d : BufferSlotDescriptor) (s i : N) (hs : list (ACCESS_OPT * BufferSlotAccess)).

Lemma size_t_incr_of_nat (k : nat) :
  size_t_incr (N.of_nat k mod 2 ^ 64) = N.of_nat (S k) mod 2 ^ 64.
Proof.
  unfold size_t_incr. rewrite N.Div0.add_mod_idemp_l. f_equal. lia.
Qed.

Lemma size_t_decr_of_nat (k : nat) :
  size_t_decr (N.of_nat (S k) mod 2 ^ 64) = N.of_nat k mod 2 ^ 64.
Proof.
  unfold size_t_decr, SIZE_MAX. rewrite N.Div0.add_mod_idemp_l.
  replace (N.of_nat (S k) + (2 ^ 64 - 1)) with (N.of_nat k + 1 * 2 ^ 64) by lia.
  apply N.Div0.mod_add.
Qed.

Lemma holders_snoc w i hs h :
  holders w i (hs ++ [h]) = (holders w i hs + (if holds w i h then 1 else 0))%nat.
Proof. unfold holders. rewrite sum_list_with_app. simpl. lia. Qed.

Lemma holders_delete w i hs k h :
  hs !! k = Some h →
  holders w i hs = (holders w i (delete k hs) + (if holds w i h then 1 else 0))%nat.
Proof.
  intros Hk. rewrite delete_take_drop.
  rewrite <- (take_drop_middle hs k h Hk) at 1.
  unfold holders. rewrite !sum_list_with_app. simpl. lia.
Qed.

Lemma holds_new w i opt : holds w i (opt, BufferSlotAccess_new) = false.
Proof. unfold holds. simpl. by rewrite andb_false_r. Qed.

Lemma holds_granted w i opt s :
  holds w i (opt, granted s) = Bool.eqb (is_writer opt) w && (s =? i).
Proof. unfold holds. simpl. by rewrite andb_true_r. Qed.

Lemma holds_granted_ne w i opt s : s ≠ i → holds w i (opt, granted s) = false.
Proof.
  intros Hne. rewrite holds_granted.
  destruct (N.eqb_spec s i); [done|]. by rewrite andb_false_r.
Qed.

Lemma client_inv_new (size : N) : client_inv (N.to_nat size) (client_new T_new size).
Proof.
  unfold client_inv. simpl.
  rewrite length_replicate, length_fmap, length_seq.
  do 3 (split; [done|]). split; [by right|]. do 2 (split; [by constructor|]).
  intros i d Hid. unfold desc in Hid. simpl in Hid.
  apply list_lookup_fmap_Some in Hid as (j & -> & _). done.
Qed.

Lemma slot_inv_frame hs hs' i d :
  (∀ w, holders w i hs' = holders w i hs) → slot_inv hs i d → slot_inv hs' i d.
Proof. unfold slot_inv. intros Hh. by rewrite !Hh. Qed.

Lemma slots_update hs hs' (ds : list BufferSlotDescriptor) s d' :
  (∀ i d, ds !! N.to_nat i = Some d → slot_inv hs i d) →
  (∀ w i, i ≠ s → holders w i hs' = holders w i hs) →
  slot_inv hs' s d' →
  ∀ i d, <[N.to_nat s := d']> ds !! N.to_nat i = Some d → slot_inv hs' i d.
Proof.
  intros Hall Hoth Hs i d Hd.
  apply list_lookup_insert_Some in Hd as [(Heq & <- & _)|(Hne & Hd)].
  - apply N2Nat.inj in Heq. by subst i.
  - eapply slot_inv_frame; [|by apply Hall].
    intros w. apply Hoth. intros ->. done.
Qed.

Lemma alter_insert_eq {A} (f : A → A) (l : list A) (k : nat) (x : A) :
  alter f k (<[k := x]> l) = <[k := f x]> l.
Proof.
  apply list_eq. intros j. destruct (decide (k = j)) as [<-|Hne].
  - rewrite list_lookup_alter_eq.
    destruct (decide (k < length l)%nat) as [Hlt|Hge].
    + by rewrite !list_lookup_insert_eq.
    + rewrite !list_insert_ge by lia. rewrite lookup_ge_None_2 by lia. done.
  - by rewrite list_lookup_alter_ne, !list_lookup_insert_ne.
Qed.

(** A handle that was not granted changes nothing. *)
Lemma client_inv_unbound n b hs opt :
  client_inv n {| buffer := b; handles := hs |} →
  client_inv n {| buffer := b; handles := hs ++ [(opt, BufferSlotAccess_new)] |}.
Proof.
  intros (Hm & Hb & Hd & Hc & Hq & Hh & Hs). unfold client_inv. simpl in *.
  do 5 (split; [done|]). split.
  - apply Forall_app. split; [done|]. constructor; [by left|constructor].
  - intros i d Hid. apply (slot_inv_frame hs); [|by apply Hs].
    intros w. by rewrite holders_snoc, holds_new, Nat.add_0_r.
Qed.

(** A reader or consumer handle granted on slot [s]. *)
Lemma client_inv_grant_shared n b hs opt s d um acc' b' :
  client_inv n {| buffer := b; handles := hs |} →
  is_writer opt = false →
  desc s b = Some d →
  timed_lock_shared (slot_mtx d) = Some um →
  grant_shared s um d BufferSlotAccess_new b = Returned (acc', b') →
  client_inv n {| buffer := b'; handles := hs ++ [(opt, acc')] |}.
Proof.
  intros (Hm & Hb & Hd & Hc & Hq & Hh & Hs) Hopt Hds Hl Hg.
  unfold grant_shared in Hg. destruct (buff b !! N.to_nat s); [|done].
  simpl in Hg. inversion Hg; subst acc' b'; clear Hg.
  unfold timed_lock_shared in Hl.
  destruct (exclusive (slot_mtx d)) eqn:Hex; [done|]. inversion Hl; subst um; clear Hl.
  pose proof (lookup_lt_Some _ _ _ Hds) as Hlt.
  destruct (Hs s d Hds) as (Hw & Hn & Ht & Hf & _). rewrite Hex in Hw, Ht.
  unfold client_inv. simpl in *.
  do 2 (split; [done|]). split; [by rewrite length_insert|]. do 2 (split; [done|]).
  split.
  - apply Forall_app. split; [done|]. constructor; [|constructor].
    right. exists s. split; [done|lia].
  - unfold desc. simpl. apply (slots_update hs); [exact Hs| |].
    + intros w i Hne. rewrite holders_snoc, holds_granted_ne by done. lia.
    + unfold slot_inv. simpl. rewrite !holders_snoc, !holds_granted, Hopt.
      rewrite N.eqb_refl. simpl. rewrite Hn, size_t_incr_of_nat.
      repeat split; try done; lia.
Qed.

Lemma client_inv_write_next n b hs :
  client_inv n {| buffer := b; handles := hs |} →
  ∀ c', step {| buffer := b; handles := hs |} call_write_next = Some c' →
        client_inv n c'.
Proof.
  intros Hinv c' Hstep. pose proof Hinv as (Hm & Hb & Hd & Hc & Hq & Hh & Hs).
  simpl in *. unfold write_next in Hstep.
  destruct (desc (curr_w_slot b) b) as [d|] eqn:Hdw; [|done].
  unfold timed_lock in Hstep.
  destruct (exclusive (slot_mtx d) || negb (shared (slot_mtx d) =? 0)%nat) eqn:Hfree.
  { inversion Hstep; subst c'. by apply client_inv_unbound. }
  apply orb_false_elim in Hfree as [Hex Hsh].
  apply negb_false_iff, Nat.eqb_eq in Hsh.
  destruct (buff b !! N.to_nat (curr_w_slot b)) as [x|] eqn:Hx; [|done].
  simpl in Hstep. rewrite Hm in Hstep.
  pose proof (lookup_lt_Some _ _ _ Hdw) as Hlt.
  unfold size in Hstep. simpl in Hstep.
  destruct (N.eqb_spec (N.of_nat (length (buff b))) 0) as [|Hnz]; [done|].
  inversion Hstep; subst c'; clear Hstep.
  destruct (Hs _ d Hdw) as (Hw & Hn & Ht & Hf & _). rewrite Hex in Hw, Ht.
  unfold client_inv. simpl.
  do 2 (split; [done|]). split; [by rewrite length_insert|]. split.
  { left. rewrite Hb in *.
    pose proof (N.mod_upper_bound (size_t_incr (curr_w_slot b)) (N.of_nat n) Hnz). lia. }
  split; [done|]. split.
  - apply Forall_app. split; [done|]. constructor; [|constructor].
    right. exists (curr_w_slot b). split; [done|lia].
  - unfold desc. simpl. apply (slots_update hs); [exact Hs| |].
    + intros w i Hne. rewrite holders_snoc, holds_granted_ne by done. lia.
    + unfold slot_inv. simpl. rewrite !holders_snoc, !holds_granted.
      rewrite N.eqb_refl. simpl. repeat split; try done; lia.
Qed.

Lemma client_inv_destroy n b hs h :
  client_inv n {| buffer := b; handles := hs |} →
  ∀ c', step {| buffer := b; handles := hs |} (call_destroy h) = Some c' →
        client_inv n c'.
Proof.
  intros (Hm & Hb & Hd & Hc & Hq & Hh & Hs) c' Hstep. simpl in *.
  destruct (hs !! h) as [[opt acc]|] eqn:Hh'; [|done]. simpl in Hstep.
  pose proof (proj1 (Forall_lookup _ _) Hh _ _ Hh') as [Hacc|(s & Hacc & Hlt)];
    simpl in Hacc; subst acc.
  - (* the handle was never granted *)
    unfold destroy in Hstep. simpl in Hstep. inversion Hstep; subst c'; clear Hstep.
    unfold client_inv. simpl. do 5 (split; [done|]). split; [by apply Forall_delete|].
    intros i d Hid. apply (slot_inv_frame hs); [|by apply Hs].
    intros w. rewrite (holders_delete w i hs h _ Hh'), holds_new. lia.
  - destruct (lookup_lt_is_Some_2 (buff_desc b) (N.to_nat s)) as [d Hds]; [lia|].
    change (desc s b = Some d) in Hds.
    destruct (Hs s d Hds) as (Hw & Hn & Ht & Hf & Hx).
    pose proof (holders_delete true s hs h _ Hh') as Hdt.
    pose proof (holders_delete false s hs h _ Hh') as Hdf.
    rewrite holds_granted, N.eqb_refl, andb_true_r in Hdt, Hdf.
    assert (Hoth : ∀ w i, i ≠ s → holders w i (delete h hs) = holders w i hs).
    { intros w i Hne. rewrite (holders_delete w i hs h _ Hh').
      rewrite holds_granted_ne by done. lia. }
    unfold destroy, release_slot_access in Hstep. simpl srcBuffer in Hstep. cbv iota in Hstep.
    destruct opt; simpl in Hdt, Hdf.
    + (* a writer *)
      unfold release_slot_access_W in Hstep. simpl slot in Hstep.
      rewrite Hds in Hstep. simpl in Hstep. inversion Hstep; subst c'; clear Hstep.
      destruct (exclusive (slot_mtx d)) eqn:Hex; [|lia]. specialize (Hx eq_refl).
      unfold client_inv. simpl.
      do 2 (split; [done|]). split; [by rewrite length_alter, length_insert|].
      split; [done|]. split.
      { apply Forall_app. split; [done|]. constructor; [done|constructor]. }
      split; [by apply Forall_delete|].
      unfold desc. simpl. rewrite alter_insert_eq.
      apply (slots_update hs); [exact Hs|exact Hoth|].
      unfold slot_inv. simpl. repeat split; try done; lia.
    + (* a reader *)
      unfold release_slot_access_R in Hstep. simpl slot in Hstep.
      rewrite Hds in Hstep. simpl in Hstep. inversion Hstep; subst c'; clear Hstep.
      destruct (shared (slot_mtx d)) as [|k] eqn:Hsh; [lia|].
      destruct (exclusive (slot_mtx d)) eqn:Hex; [by specialize (Hx eq_refl)|].
      unfold client_inv. simpl.
      do 2 (split; [done|]). split; [by rewrite length_alter, length_insert|].
      do 2 (split; [done|]). split; [by apply Forall_delete|].
      unfold desc. simpl. rewrite alter_insert_eq.
      apply (slots_update hs); [exact Hs|exact Hoth|].
      unfold slot_inv. simpl. rewrite Hn, Hsh, Hex, size_t_decr_of_nat.
      repeat split; try done; lia.
    + (* a consumer *)
      unfold release_slot_access_C in Hstep. simpl slot in Hstep.
      rewrite Hds in Hstep. simpl in Hstep. inversion Hstep; subst c'; clear Hstep.
      destruct (shared (slot_mtx d)) as [|k] eqn:Hsh; [lia|].
      destruct (exclusive (slot_mtx d)) eqn:Hex; [by specialize (Hx eq_refl)|].
      unfold client_inv. simpl.
      do 2 (split; [done|]). split; [by rewrite length_alter, length_insert|].
      do 2 (split; [done|]). split; [by apply Forall_delete|].
      unfold desc. simpl. rewrite alter_insert_eq.
      apply (slots_update hs); [exact Hs|exact Hoth|].
      unfold slot_inv. simpl. rewrite Hn, Hsh, Hex, size_t_decr_of_nat.
      repeat split; try done; lia.
Qed.

Lemma wait_data_available_empty deadline now b :
  dirty_slots b = [] →
  wait_data_available deadline now [] b = TimedOut (now `max` deadline now)%Z b.
Proof. intros Hq. simpl. by rewrite Hq. Qed.

Lemma client_inv_after_grant n b hs opt s d (b0 r : MTCircularBuffer T) c' :
  client_inv n {| buffer := b; handles := hs |} →
  is_writer opt = false →
  desc s b = Some d →
  after_access opt {| buffer := b0; handles := hs |}
    match timed_lock_shared (slot_mtx d) with
    | Some um => grant_shared s um d BufferSlotAccess_new b
    | None => Thrown SlotAcqTimeout (BufferSlotAccess_new, r)
    end = Some c' →
  client_inv n {| buffer := r; handles := hs |} →
  client_inv n c'.
Proof.
  intros Hinv Hopt Hd Hstep Hr.
  destruct (timed_lock_shared (slot_mtx d)) as [um|] eqn:Hl.
  - destruct (grant_shared s um d BufferSlotAccess_new b) as [[acc' b']|e [acc' b']|] eqn:Hg;
      [|by unfold grant_shared in Hg; destruct (buff b !! N.to_nat s)|done].
    simpl in Hstep. inversion Hstep; subst c'.
    exact (client_inv_grant_shared n b hs opt s d um acc' b' Hinv Hopt Hd Hl Hg).
  - simpl in Hstep. inversion Hstep; subst c'. by apply client_inv_unbound.
Qed.

(** The invariant is kept by every call of a client. *)
Lemma client_inv_step n c k c' :
  client_inv n c → step c k = Some c' → client_inv n c'.
Proof.
  destruct c as [b hs]. intros Hinv Hstep.
  destruct k as [|s| | | |h].
  - by eapply client_inv_write_next.
  - simpl in Hstep. unfold read_slot in Hstep.
    destruct (desc s b) as [d|] eqn:Hd; [|done].
    by eapply (client_inv_after_grant n b hs ACCESS_OPT_READ s d b b).
  - simpl in Hstep. unfold read_newest_available in Hstep.
    destruct (decide (dirty_slots b = [])) as [Hq|Hq].
    { rewrite wait_data_available_empty in Hstep by done.
      simpl in Hstep. inversion Hstep; subst c'. by apply client_inv_unbound. }
    rewrite wait_data_available_nonempty in Hstep by done.
    destruct (last (dirty_slots b)) as [s|]; [|done].
    destruct (desc s b) as [d|] eqn:Hd; [|done].
    by eapply (client_inv_after_grant n b hs ACCESS_OPT_READ s d b b).
  - simpl in Hstep. unfold consume_next_available in Hstep.
    destruct (decide (dirty_slots b = [])) as [Hq|Hq].
    { rewrite wait_data_available_empty in Hstep by done.
      simpl in Hstep. inversion Hstep; subst c'. by apply client_inv_unbound. }
    rewrite wait_data_available_nonempty in Hstep by done.
    destruct (dirty_slots b) as [|s rest] eqn:Hq'; [done|].
    destruct (desc s b) as [d|] eqn:Hd; [|done].
    destruct Hinv as (Hm & Hb & Hdl & Hc & Hqs & Hh & Hs). simpl in *.
    rewrite Hq' in Hqs. apply Forall_cons in Hqs as [Hs0 Hrest].
    destruct (timed_lock_shared (slot_mtx d)) as [um|] eqn:Hl.
    + destruct (grant_shared s um d BufferSlotAccess_new (set_dirty_slots rest b))
        as [[acc' b']|e [acc' b']|] eqn:Hg;
        [|by unfold grant_shared in Hg; destruct (buff _ !! N.to_nat s)|done].
      simpl in Hstep. inversion Hstep; subst c'.
      eapply (client_inv_grant_shared n (set_dirty_slots rest b) hs _ s d um);
        try done; unfold client_inv; by simpl.
    + simpl in Hstep. inversion Hstep; subst c'.
      apply client_inv_unbound. unfold client_inv. simpl. rewrite Hq'.
      do 4 (split; [done|]). split; [by constructor|done].
  - simpl in Hstep. unfold clear in Hstep.
    destruct Hinv as (Hm & Hb & Hdl & Hc & Hqs & Hh & Hs). simpl in *.
    rewrite Hm in Hstep. inversion Hstep; subst c'.
    unfold client_inv. simpl. do 3 (split; [done|]). split; [by right|].
    split; [constructor|]. done.
  - by eapply client_inv_destroy.
Qed.

Lemma client_inv_run n ks c c' :
  client_inv n c → run ks c = Some c' → client_inv n c'.
Proof.
  revert c. induction ks as [|k ks IH]; intros c Hinv Hrun; simpl in Hrun.
  - by inversion Hrun; subst.
  - destruct (step c k) as [c1|] eqn:Hstep; [|done]. simpl in Hrun.
    eapply IH; [|done]. by eapply client_inv_step.
Qed.

Lemma client_inv_reachable (size : N) ks c :
  run ks (client_new T_new size) = Some c → client_inv (N.to_nat size) c.
Proof. apply client_inv_run, client_inv_new. Qed.

Lemma holders_unbound w i hs :
  Forall (λ h, srcBuffer h.2 = false) hs → holders w i hs = 0%nat.
Proof.
  unfold holders. induction 1 as [|h hs Hh _ IH]; [done|].
  simpl. unfold holds at 1. by rewrite Hh, andb_false_r.
Qed.

(** ** What holds of every state a client reaches *)

(** X1: in every state a single-threaded client reaches, no slot is at once
    being written and being read: [is_written i] and [is_read i] are never
    both true. *)
Theorem never_written_and_read (size : N) ks c i :
  run ks (client_new T_new size) = Some c →
  is_written i (buffer c) && is_read i (buffer c) = false.
Proof.
  intros Hrun. apply client_inv_reachable in Hrun as (_ & _ & _ & _ & _ & _ & Hs).
  unfold is_read, num_concurrent_read, is_written.
  destruct (i <? N.of_nat (length (buff_desc (buffer c)))); [|done].
  destruct (desc i (buffer c)) as [d|] eqn:Hd; [|done].
  destruct (Hs i d Hd) as (Hw & Hn & _ & _ & Hx).
  destruct (writing d); [|done]. simpl.
  rewrite Hn, Hx by done. done.
Qed.

(** X2: in every state a client reaches, the descriptors count the handles
    in scope: a slot has at most one bound write handle and [is_written]
    tells whether it has one; [num_concurrent_read] is the number of bound
    read and consume handles on the slot (modulo [2^64]). *)
Theorem descriptors_count_handles (size : N) ks c i :
  run ks (client_new T_new size) = Some c →
  i < size →
  holders true i (handles c) = (if is_written i (buffer c) then 1 else 0)%nat ∧
  num_concurrent_read i (buffer c)
    = N.of_nat (holders false i (handles c)) mod 2 ^ 64.
Proof.
  intros Hrun Hi.
  apply client_inv_reachable in Hrun as (_ & _ & Hl & _ & _ & _ & Hs).
  unfold num_concurrent_read, is_written. rewrite Hl.
  destruct (N.ltb_spec i (N.of_nat (N.to_nat size))); [|lia].
  destruct (lookup_lt_is_Some_2 (buff_desc (buffer c)) (N.to_nat i)) as [d Hd]; [lia|].
  change (desc i (buffer c) = Some d) in Hd. rewrite Hd.
  destruct (Hs i d Hd) as (Hw & Hn & Ht & Hf & _).
  by rewrite Hw, Hn, Ht, Hf.
Qed.

(** X3: once every handle a client holds is unbound (in particular once all
    handles are gone), no slot is locked, written or read. *)
Theorem no_lock_without_handle (size : N) ks c i d :
  run ks (client_new T_new size) = Some c →
  Forall (λ h, srcBuffer h.2 = false) (handles c) →
  desc i (buffer c) = Some d →
  slot_mtx d = shared_mutex_new ∧ writing d = false ∧ n_reading d = 0.
Proof.
  intros Hrun Hun Hd.
  apply client_inv_reachable in Hrun as (_ & _ & _ & _ & _ & _ & Hs).
  destruct (Hs i d Hd) as (Hw & Hn & Ht & Hf & _).
  rewrite !holders_unbound in Ht, Hf by done.
  destruct (slot_mtx d) as [ex sh] eqn:Hm. simpl in *. subst sh.
  destruct ex; [done|]. by rewrite Hw, Hn.
Qed.

(** X4: the capacity is fixed and the cursor stays inside it: in every state
    a client of a buffer built with [size] slots reaches, [size()] is
    [size], the two vectors have that length, and the write cursor is below
    [size] unless the buffer has no slot. *)
Theorem capacity_and_cursor (size0 : N) ks c :
  run ks (client_new T_new size0) = Some c →
  size (buffer c) = size0 ∧
  aligned (buffer c) ∧
  (0 < size0 → curr_w_slot (buffer c) < size0).
Proof.
  intros Hrun.
  apply client_inv_reachable in Hrun as (_ & Hb & Hl & Hc & _).
  unfold size, aligned. rewrite Hb, Hl. repeat split; lia.
Qed.

(** X5: every index in the dirty-slot queue of a state a client reaches is
    the index of a slot of the buffer. *)
Theorem dirty_slots_in_range (size0 : N) ks c :
  run ks (client_new T_new size0) = Some c →
  Forall (λ s, s < size0) (dirty_slots (buffer c)).
Proof.
  intros Hrun.
  apply client_inv_reachable in Hrun as (_ & _ & _ & _ & Hq & _).
  eapply Forall_impl; [exact Hq|]. simpl. lia.
Qed.

Lemma after_grant_defined opt c0 s d acc (b0 r : MTCircularBuffer T) e :
  is_Some (buff b0 !! N.to_nat s) →
  is_Some (after_access opt c0
             match timed_lock_shared (slot_mtx d) with
             | Some um => grant_shared s um d acc b0
             | None => Thrown e (acc, r)
             end).
Proof.
  intros [x Hx]. destruct (timed_lock_shared (slot_mtx d)); [|by eexists].
  unfold grant_shared. rewrite Hx. by eexists.
Qed.

(** X6: a client never makes the buffer index outside its vectors, except by
    handing [read_slot] an index that is not below the size or by writing
    to a buffer without slots: in every state it reaches,
    [read_newest_available], [consume_next_available], [clear] and the
    destructor of any of its handles are defined, and so are [write_next] on
    a buffer of positive size and [read_slot] below the size. *)
Theorem client_calls_defined (size0 : N) ks c :
  run ks (client_new T_new size0) = Some c →
  is_Some (step c call_read_newest_available) ∧
  is_Some (step c call_consume_next_available) ∧
  is_Some (step c call_clear) ∧
  (0 < size0 → is_Some (step c call_write_next)) ∧
  (∀ s, s < size0 → is_Some (step c (call_read_slot s))) ∧
  (∀ h, (h < length (handles c))%nat → is_Some (step c (call_destroy h))).
Proof.
  intros Hrun.
  apply client_inv_reachable in Hrun as (Hm & Hb & Hl & Hc & Hq & Hh & Hs).
  destruct c as [b hs]. simpl in *.
  assert (Hin : ∀ s, (N.to_nat s < N.to_nat size0)%nat →
            is_Some (desc s b) ∧ is_Some (buff b !! N.to_nat s)).
  { intros s Hlt. split; apply lookup_lt_is_Some; lia. }
  split; [|split; [|split; [|split; [|split]]]].
  - unfold read_newest_available.
    destruct (decide (dirty_slots b = [])) as [Hq0|Hq0].
    { rewrite wait_data_available_empty by done. by eexists. }
    rewrite wait_data_available_nonempty by done.
    destruct (last (dirty_slots b)) as [s|] eqn:Hlast; [|by apply last_None in Hlast].
    apply last_Some in Hlast as [q Hq']. rewrite Hq' in Hq.
    apply Forall_app in Hq as [_ Hs0]. apply Forall_cons in Hs0 as [Hs0 _].
    destruct (Hin s Hs0) as [[d Hd] Hx]. rewrite Hd.
    by apply after_grant_defined.
  - unfold consume_next_available.
    destruct (dirty_slots b) as [|s rest] eqn:Hq0.
    { rewrite wait_data_available_empty by done. by eexists. }
    rewrite wait_data_available_nonempty by (by rewrite Hq0). rewrite Hq0.
    apply Forall_cons in Hq as [Hs0 _].
    destruct (Hin s Hs0) as [[d Hd] Hx]. rewrite Hd.
    by apply after_grant_defined.
  - unfold clear. rewrite Hm. by eexists.
  - intros Hpos.
    assert (Hlt : (N.to_nat (curr_w_slot b) < N.to_nat size0)%nat).
    { destruct Hc as [?| ->]; lia. }
    destruct (Hin _ Hlt) as [[d Hd] [x Hx]].
    unfold write_next. rewrite Hd.
    destruct (timed_lock (slot_mtx d)); [|by eexists].
    rewrite Hx. simpl. rewrite Hm. unfold size. simpl. rewrite Hb.
    destruct (N.eqb_spec (N.of_nat (N.to_nat size0)) 0); [lia|]. by eexists.
  - intros s Hlt. unfold read_slot.
    destruct (Hin s) as [[d Hd] Hx]; [lia|]. rewrite Hd.
    by apply after_grant_defined.
  - intros h Hlt. apply lookup_lt_is_Some in Hlt as [[opt acc] Hh'].
    rewrite Hh'. simpl.
    pose proof (proj1 (Forall_lookup _ _) Hh _ _ Hh') as [Hacc|(s & Hacc & Hs0)];
      simpl in Hacc; subst acc.
    + unfold destroy. simpl. by eexists.
    + destruct (Hin s Hs0) as [[d Hd] _].
      unfold destroy. simpl srcBuffer. cbv iota.
      destruct opt; simpl;
        unfold release_slot_access_W, release_slot_access_R, release_slot_access_C;
        simpl slot; rewrite Hd; simpl; by eexists.
Qed.

End Discipline_facts.

(** * Round trips and exclusion *)

Section Round_trips.

Context {T : Type}.
Implicit Types (b : MTCircularBuffer T) (acc : BufferSlotAccess)
  (d : BufferSlotDescriptor) (s i : N).

Lemma set_desc_id s d b : desc s b = Some d → set_desc s d b = b.
Proof.
  intros Hd. unfold set_desc, set_buff_desc. rewrite list_insert_id by done.
  by destruct b.
Qed.

(** What a granted shared handle and its release do to the buffer. *)
Lemma grant_shared_release opt s d um b acc' b' :
  opt ≠ ACCESS_OPT_WRITE →
  desc s b = Some d →
  timed_lock_shared (slot_mtx d) = Some um →
  grant_shared s um d BufferSlotAccess_new b = Returned (acc', b') →
  acc' = granted s ∧
  dirty_slots b' = dirty_slots b ∧
  desc s b' = Some (set_n_reading (size_t_incr (n_reading d)) (set_slot_mtx um d)) ∧
  destroy opt acc' b'
    = Some (set_desc s
              (set_n_reading (size_t_decr (size_t_incr (n_reading d)))
                 (if opt is ACCESS_OPT_CONSUME then set_is_dirty false d else d)) b).
Proof.
  intros Hopt Hd Hl Hg. unfold grant_shared in Hg.
  destruct (buff b !! N.to_nat s); [|done]. simpl in Hg.
  inversion Hg; subst acc' b'; clear Hg.
  unfold timed_lock_shared in Hl.
  destruct (exclusive (slot_mtx d)) eqn:Hex; [done|]. inversion Hl; subst um; clear Hl.
  set (d1 := set_n_reading _ _).
  assert (Hd1 : desc s (set_desc s d1 b) = Some d1) by (apply desc_set_desc_eq; eauto).
  do 3 (split; [done|]).
  unfold destroy. simpl srcBuffer. cbv iota.
  destruct opt; [done| |];
    simpl; unfold release_slot_access_R, release_slot_access_C; simpl slot;
    rewrite Hd1; simpl; f_equal; unfold set_desc, set_buff_desc; simpl;
    rewrite alter_insert_eq, list_insert_insert_eq; do 2 f_equal;
    destruct d as [[ex sh] w n dirty]; simpl in *; by subst.
Qed.

(** X7: a peek read leaves no trace.  When [read_slot] on a fresh handle
    returns, the handle is bound to the requested slot, the slot counts one
    more reader and the queue is as it was; once the handle is destroyed the
    buffer is exactly what it was before the call. *)
Theorem read_slot_release_restores s b d acc' b' :
  desc s b = Some d →
  size_t_range (n_reading d) →
  read_slot s BufferSlotAccess_new b = Returned (acc', b') →
  acc' = granted s ∧
  num_concurrent_read s b' = size_t_incr (n_reading d) ∧
  dirty_slots b' = dirty_slots b ∧
  destroy ACCESS_OPT_READ acc' b' = Some b.
Proof.
  intros Hd Hr H. unfold read_slot in H. rewrite Hd in H.
  destruct (timed_lock_shared (slot_mtx d)) as [um|] eqn:Hl; [|done].
  destruct (grant_shared_release ACCESS_OPT_READ s d um b acc' b')
    as (-> & Hq & Hd' & Hdes); try done.
  split; [done|]. split.
  { unfold num_concurrent_read. rewrite Hd'. simpl.
    apply lookup_lt_Some in Hd'.
    destruct (N.ltb_spec s (N.of_nat (length (buff_desc b')))); [done|lia]. }
  split; [done|].
  rewrite Hdes, size_t_incr_decr by done. f_equal.
  apply set_desc_id. rewrite Hd. by destruct d.
Qed.

(** X8: [read_newest_available] peeks at the back of the queue.  With a
    queue that ends in [s] it returns a handle on [s] whenever the shared
    lock of [s] is free, leaves the queue as it is, and the release of the
    handle gives back the buffer of before the call. *)
Theorem read_newest_available_peeks now pending b q s d :
  dirty_slots b = q ++ [s] →
  desc s b = Some d →
  is_Some (buff b !! N.to_nat s) →
  exclusive (slot_mtx d) = false →
  size_t_range (n_reading d) →
  ∃ b', read_newest_available now pending BufferSlotAccess_new b
          = Returned (granted s, b') ∧
        dirty_slots b' = q ++ [s] ∧
        destroy ACCESS_OPT_READ (granted s) b' = Some b.
Proof.
  intros Hq Hd [x Hx] Hex Hr. unfold read_newest_available.
  rewrite wait_data_available_nonempty by (rewrite Hq; by destruct q).
  rewrite Hq, last_snoc, Hd.
  destruct (timed_lock_shared (slot_mtx d)) as [um|] eqn:Hl;
    [|by unfold timed_lock_shared in Hl; rewrite Hex in Hl].
  destruct (grant_shared s um d BufferSlotAccess_new b) as [[acc' b']| |] eqn:Hg;
    [|by unfold grant_shared in Hg; rewrite Hx in Hg..].
  destruct (grant_shared_release ACCESS_OPT_READ s d um b acc' b')
    as (-> & Hq' & _ & Hdes); try done.
  exists b'. split; [done|]. split; [by rewrite Hq', Hq|].
  rewrite Hdes, size_t_incr_decr by done. f_equal.
  apply set_desc_id. rewrite Hd. by destruct d.
Qed.

(** X9: one round of the producer.  When [write_next] on a fresh handle
    returns and the handle is then destroyed, the slot written is dirty, not
    being written and unlocked again, its reader count is untouched, its
    index has been appended to the queue (which is one longer, whether or
    not the slot was dirty before), [notify_one] has been raised, and no
    other descriptor has changed. *)
Theorem write_next_release ow b acc' ow' b' :
  write_next BufferSlotAccess_new ow b = Returned (acc', ow', b') →
  ∃ d b'' d'',
    desc (curr_w_slot b) b = Some d ∧
    slot acc' = curr_w_slot b ∧
    destroy ACCESS_OPT_WRITE acc' b' = Some b'' ∧
    desc (slot acc') b'' = Some d'' ∧
    is_dirty d'' = true ∧ writing d'' = false ∧
    slot_mtx d'' = slot_mtx d ∧ n_reading d'' = n_reading d ∧
    dirty_slots b'' = dirty_slots b ++ [slot acc'] ∧
    num_consumable_slots b'' = num_consumable_slots b + 1 ∧
    data_available b'' = data_available b ++ [notify_one] ∧
    buff b'' = buff b ∧
    (∀ j, j ≠ slot acc' → desc j b'' = desc j b).
Proof.
  intros H. apply write_next_inv in H as (d & um & Hd & Hl & _ & _ & Hr).
  inversion Hr; subst acc' ow' b'; clear Hr. simpl slot_lock.
  set (w := curr_w_slot b) in *.
  set (d1 := set_writing true (set_slot_mtx um d)).
  assert (Hd1 : desc w (set_desc w d1 b) = Some d1) by (apply desc_set_desc_eq; eauto).
  unfold timed_lock in Hl.
  destruct (exclusive (slot_mtx d) || negb (shared (slot_mtx d) =? 0)%nat) eqn:Hfree;
    [done|]. inversion Hl; subst um; clear Hl.
  apply orb_false_elim in Hfree as [Hex _].
  pose proof (lookup_lt_Some _ _ _ Hd) as Hlt.
  eexists d, _, _. split; [done|]. split; [done|]. split.
  { unfold destroy. simpl srcBuffer. cbv iota. simpl release_slot_access.
    unfold release_slot_access_W. simpl slot.
    change (desc w (set_curr_w_slot ?y ?x)) with (desc w x).
    rewrite Hd1. simpl. reflexivity. }
  split.
  { unfold desc. simpl. rewrite alter_insert_eq, list_insert_insert_eq.
    apply list_lookup_insert_eq. lia. }
  simpl. do 2 (split; [done|]). split.
  { destruct d as [[ex sh] wr n dirty]. simpl in *. by subst. }
  do 2 (split; [done|]). split.
  { unfold num_consumable_slots. simpl. rewrite length_app. simpl. lia. }
  do 2 (split; [done|]).
  intros j Hj. unfold desc. simpl.
  rewrite alter_insert_eq, list_insert_insert_eq.
  apply list_lookup_insert_ne. intros Heq. apply N2Nat.inj in Heq. done.
Qed.

(** X10: a live write handle keeps everyone else out of its slot.  After
    [write_next] on a fresh handle has returned, [read_slot] on that slot
    throws [SlotAcqTimeout] and changes nothing, and so do
    [read_newest_available] when the slot is at the back of the queue and
    [consume_next_available] when it is at the front (the latter after
    raising [notify_all]); on a buffer of one slot a second [write_next]
    throws [SlotAcqTimeout] as well. *)
Theorem writer_excludes_others ow b acc' ow' b' :
  write_next BufferSlotAccess_new ow b = Returned (acc', ow', b') →
  (∀ acc2, read_slot (slot acc') acc2 b' = Thrown SlotAcqTimeout (acc2, b')) ∧
  (∀ now pending acc2 q,
     dirty_slots b' = q ++ [slot acc'] →
     read_newest_available now pending acc2 b' = Thrown SlotAcqTimeout (acc2, b')) ∧
  (∀ now pending acc2 rest,
     dirty_slots b' = slot acc' :: rest →
     consume_next_available now pending acc2 b'
       = Thrown SlotAcqTimeout
           (acc2, set_data_available (data_available b' ++ [notify_all]) b')) ∧
  (size b = 1 →
     ∀ acc2 ow2, write_next acc2 ow2 b' = Thrown SlotAcqTimeout (acc2, ow2, b')).
Proof.
  intros H. apply write_next_inv in H as (d & um & Hd & Hl & Hx & _ & Hr).
  inversion Hr; subst acc' ow' b'; clear Hr. simpl slot_lock. simpl slot.
  set (w := curr_w_slot b) in *.
  set (d1 := set_writing true (set_slot_mtx um d)).
  set (b1 := set_desc w d1 b).
  assert (Hd1 : ∀ y, desc w (set_curr_w_slot y (drop_lock unlock None b1)) = Some d1)
    by (intros y; apply (desc_set_desc_eq w d1 b); eauto).
  assert (Hex : timed_lock_shared (slot_mtx d1) = None ∧ timed_lock (slot_mtx d1) = None).
  { change (slot_mtx d1) with um. unfold timed_lock in Hl.
    destruct (exclusive (slot_mtx d) || negb (shared (slot_mtx d) =? 0)%nat); [done|].
    by inversion Hl. }
  destruct Hex as [Hsh Hun].
  split; [|split; [|split]].
  - intros acc2. unfold read_slot. by rewrite Hd1, Hsh.
  - intros now pending acc2 q Hq. unfold read_newest_available.
    rewrite wait_data_available_nonempty by (rewrite Hq; by destruct q).
    by rewrite Hq, last_snoc, Hd1, Hsh.
  - intros now pending acc2 rest Hq. unfold consume_next_available.
    rewrite wait_data_available_nonempty by (by rewrite Hq).
    by rewrite Hq, Hd1, Hsh.
  - intros Hone acc2 ow2.
    assert (Hw : w = 0).
    { destruct Hx as [x Hx]. apply lookup_lt_Some in Hx. unfold size in Hone. lia. }
    unfold write_next. simpl curr_w_slot. rewrite Hw, Hone.
    replace (size_t_incr 0 `mod` 1) with 0 by (by rewrite N.mod_1_r).
    rewrite <- Hw at 1. by rewrite Hd1, Hun.
Qed.

(** X11: readers share a slot and keep the writer out.  After [read_slot] on
    a fresh handle has returned, a second [read_slot] on the same slot
    returns too, while [write_next], when the cursor is on that slot, throws
    [SlotAcqTimeout] and changes nothing. *)
Theorem readers_share_and_exclude_writer s b acc' b' :
  read_slot s BufferSlotAccess_new b = Returned (acc', b') →
  (∃ b'', read_slot s BufferSlotAccess_new b' = Returned (granted s, b'')) ∧
  (curr_w_slot b' = s →
     ∀ acc2 ow, write_next acc2 ow b' = Thrown SlotAcqTimeout (acc2, ow, b')).
Proof.
  intros H. unfold read_slot in H.
  destruct (desc s b) as [d|] eqn:Hd; [|done].
  unfold timed_lock_shared in H.
  destruct (exclusive (slot_mtx d)) eqn:Hex; [done|].
  unfold grant_shared in H.
  destruct (buff b !! N.to_nat s) as [x|] eqn:Hx; [|done].
  simpl in H. inversion H; subst acc' b'; clear H.
  set (d1 := set_n_reading _ _).
  assert (Hd1 : desc s (set_desc s d1 b) = Some d1) by (apply desc_set_desc_eq; eauto).
  split.
  - unfold read_slot. rewrite Hd1. simpl. unfold grant_shared. simpl.
    rewrite Hx. by eexists.
  - intros Hc acc2 ow. unfold write_next. rewrite Hc, Hd1. done.
Qed.

End Round_trips.

(** * The producer and the consumer threads *)

Section Threads.

Context {T : Type}.
Variable T_new : T.
Implicit Types (b : MTCircularBuffer T) (c : client T) (acc : BufferSlotAccess)
  (d : BufferSlotDescriptor) (s i : N).

(** With no handle in scope every mutex is free. *)
Lemma quiescent_free n c i d :
  client_inv n c → handles c = [] → desc i (buffer c) = Some d →
  exclusive (slot_mtx d) = false ∧ shared (slot_mtx d) = 0%nat.
Proof.
  intros (_ & _ & _ & _ & _ & _ & Hs) Hh Hd.
  destruct (Hs i d Hd) as (_ & _ & Ht & Hf & _). rewrite Hh in Ht, Hf.
  unfold holders in *. simpl in *. by destruct (exclusive (slot_mtx d)).
Qed.

Lemma step_destroy c h opt acc b' :
  handles c !! h = Some (opt, acc) →
  destroy opt acc (buffer c) = Some b' →
  step c (call_destroy h) = Some {| buffer := b'; handles := delete h (handles c) |}.
Proof. intros H1 H2. simpl. rewrite H1. simpl. by rewrite H2. Qed.

Lemma producer_round n c :
  client_inv n c → handles c = [] → (0 < n)%nat → N.of_nat n < 2 ^ 64 →
  ∃ c', run [call_write_next; call_destroy 0] c = Some c' ∧
        client_inv n c' ∧ handles c' = [] ∧
        curr_w_slot (buffer c') = (curr_w_slot (buffer c) + 1) mod N.of_nat n ∧
        dirty_slots (buffer c') = dirty_slots (buffer c) ++ [curr_w_slot (buffer c)] ∧
        ∀ i d d', desc i (buffer c) = Some d → desc i (buffer c') = Some d' →
                  is_dirty d' = is_dirty d || (i =? curr_w_slot (buffer c)).
Proof.
  intros Hinv Hh Hn Hr. pose proof Hinv as (Hm & Hb & Hl & Hc & _).
  destruct c as [b hs]. simpl in *. subst hs.
  set (w := curr_w_slot b) in *.
  assert (Hlt : (N.to_nat w < n)%nat) by (destruct Hc as [?|Hz]; [done|rewrite Hz; lia]).
  destruct (lookup_lt_is_Some_2 (buff_desc b) (N.to_nat w)) as [d Hd]; [lia|].
  destruct (lookup_lt_is_Some_2 (buff b) (N.to_nat w)) as [x Hx]; [lia|].
  change (desc w b = Some d) in Hd.
  destruct (quiescent_free n _ w d Hinv eq_refl Hd) as [Hex Hsh].
  assert (Hstep : step {| buffer := b; handles := [] |} call_write_next
            = Some {| buffer := set_curr_w_slot (size_t_incr w mod size b)
                                  (set_desc w (set_writing true
                                     (set_slot_mtx {| exclusive := true;
                                                      shared := shared (slot_mtx d) |} d)) b);
                      handles := [(ACCESS_OPT_WRITE, granted w)] |}).
  { simpl. unfold write_next. fold w. rewrite Hd. unfold timed_lock.
    rewrite Hex, Hsh. simpl. rewrite Hx. simpl. rewrite Hm.
    unfold size. simpl. rewrite Hb.
    destruct (N.eqb_spec (N.of_nat n) 0); [lia|]. done. }
  set (c1 := {| buffer := set_curr_w_slot _ _; handles := _ |}) in Hstep.
  assert (Hinv1 : client_inv n c1) by (by eapply client_inv_step).
  assert (Hd1 : is_Some (desc w (buffer c1))).
  { apply lookup_lt_is_Some. simpl. rewrite length_insert. lia. }
  destruct Hd1 as [d1 Hd1].
  assert (Hdes : ∃ b2 dfin, destroy ACCESS_OPT_WRITE (granted w) (buffer c1) = Some b2 ∧
            curr_w_slot b2 = size_t_incr w mod size b ∧
            dirty_slots b2 = dirty_slots b ++ [w] ∧
            buff_desc b2 = <[N.to_nat w := dfin]> (buff_desc b) ∧
            is_dirty dfin = true).
  { unfold destroy. simpl srcBuffer. cbv iota.
    unfold release_slot_access, release_slot_access_W. simpl slot.
    rewrite Hd1. simpl. eexists _, _. split; [done|]. do 2 (split; [done|]).
    split; [by rewrite alter_insert_eq, list_insert_insert_eq|done]. }
  destruct Hdes as (b2 & dfin & Hdes & Hc2 & Hq2 & Hds2 & Hdirty).
  assert (Hs2 : step c1 (call_destroy 0) = Some {| buffer := b2; handles := [] |})
    by (by apply (step_destroy c1 0 ACCESS_OPT_WRITE (granted w))).
  exists {| buffer := b2; handles := [] |}.
  split; [by simpl in *; rewrite Hstep; simpl; rewrite Hs2|].
  split; [by eapply client_inv_step|]. split; [done|]. simpl.
  split; [|split; [done|]].
  - rewrite Hc2. unfold size, size_t_incr. rewrite Hb.
    rewrite (N.mod_small (w + 1)) by lia. done.
  - intros i d0 d' Hi Hi'. unfold desc in Hi'. rewrite Hds2 in Hi'.
    apply list_lookup_insert_Some in Hi' as [(Heq & <- & _)|(Hne & Hi')].
    + apply N2Nat.inj in Heq. subst i. by rewrite Hdirty, N.eqb_refl, orb_true_r.
    + unfold desc in Hi. rewrite Hi in Hi'. inversion Hi'; subst d'.
      destruct (N.eqb_spec i w) as [->|]; [done|]. by rewrite orb_false_r.
Qed.

Lemma run_app ks1 ks2 c :
  run (ks1 ++ ks2) c = run ks1 c ≫= run ks2.
Proof.
  revert c. induction ks1 as [|k ks1 IH]; intros c; simpl; [done|].
  destruct (step c k); simpl; [apply IH|done].
Qed.

Lemma producer_rounds_run n k c :
  client_inv n c → handles c = [] → (0 < n)%nat → N.of_nat n < 2 ^ 64 →
  ∃ c' ws,
    run (producer_rounds k) c = Some c' ∧
    client_inv n c' ∧ handles c' = [] ∧
    curr_w_slot (buffer c')
      = (curr_w_slot (buffer c) + N.of_nat k) mod N.of_nat n ∧
    ws = ((λ j, (curr_w_slot (buffer c) + N.of_nat j) mod N.of_nat n) <$> seq 0 k) ∧
    dirty_slots (buffer c') = dirty_slots (buffer c) ++ ws ∧
    ∀ i d d', desc i (buffer c) = Some d → desc i (buffer c') = Some d' →
              is_dirty d' = is_dirty d || bool_decide (i ∈ ws).
Proof.
  intros Hinv Hh Hn Hr. revert c Hinv Hh.
  induction k as [|k IH]; intros c Hinv Hh.
  - exists c, []. split; [done|]. do 2 (split; [done|]).
    destruct Hinv as (_ & _ & _ & Hc & _). simpl. rewrite app_nil_r, N.add_0_r.
    split; [|split; [done|split; [done|]]].
    { rewrite N.mod_small; [done|]. destruct Hc as [?| ->]; lia. }
    intros i d d' Hi Hi'. rewrite Hi in Hi'. inversion Hi'.
    by rewrite orb_false_r.
  - destruct (producer_round n c Hinv Hh Hn Hr)
      as (c1 & Hrun1 & Hinv1 & Hh1 & Hc1 & Hq1 & Hd1).
    destruct (IH c1 Hinv1 Hh1) as (c2 & ws & Hrun2 & Hinv2 & Hh2 & Hc2 & Hws & Hq2 & Hd2).
    exists c2, (curr_w_slot (buffer c) :: ws). split.
    { change (producer_rounds (S k))
        with ([call_write_next; call_destroy 0] ++ producer_rounds k).
      by rewrite run_app, Hrun1. }
    do 2 (split; [done|]).
    assert (Hw : curr_w_slot (buffer c) < N.of_nat n).
    { destruct Hinv as (_ & _ & _ & [?| ->] & _); lia. }
    split; [|split; [|split]].
    + rewrite Hc2, Hc1, N.Div0.add_mod_idemp_l. f_equal. lia.
    + change (seq 0 (S k)) with (0%nat :: seq 1 k).
      rewrite <- (fmap_S_seq 0 k), fmap_cons.
      change (N.of_nat 0) with 0. rewrite N.add_0_r, N.mod_small by done.
      f_equal. rewrite Hws, <- list_fmap_compose. apply list_fmap_ext.
      intros _ j _. simpl. rewrite Hc1, N.Div0.add_mod_idemp_l. f_equal. lia.
    + by rewrite Hq2, Hq1, <- app_assoc.
    + intros i d d' Hi Hi'.
      destruct (lookup_lt_is_Some_2 (buff_desc (buffer c1)) (N.to_nat i)) as [d1 Hi1].
      { destruct Hinv as (_ & _ & Hl & _), Hinv1 as (_ & _ & Hl1 & _).
        apply lookup_lt_Some in Hi. lia. }
      rewrite (Hd2 i d1 d' Hi1 Hi'), (Hd1 i d d1 Hi Hi1), <- orb_assoc. f_equal.
      destruct (N.eqb_spec i (curr_w_slot (buffer c))) as [->|Hne].
      * simpl. symmetry. apply bool_decide_eq_true. by left.
      * simpl. apply bool_decide_ext. rewrite elem_of_cons.
        split; [by right|]. by intros [?|?].
Qed.

(** X12: the producer goes round the ring.  On a fresh buffer of [size0]
    slots ([0 < size0 < 2^64]), [k] rounds of [write_next] and release all
    return; they leave no handle behind, the cursor on [k mod size0], and a
    queue that lists the slots written in order, [0, 1, ..., size0 - 1, 0,
    ...], one entry per round, so that [num_consumable_slots] is [k]. *)
Theorem producer_goes_round (size0 : N) (k : nat) :
  0 < size0 → size0 < 2 ^ 64 →
  ∃ c, run (producer_rounds k) (client_new T_new size0) = Some c ∧
       handles c = [] ∧
       curr_w_slot (buffer c) = N.of_nat k mod size0 ∧
       dirty_slots (buffer c) = (λ j, N.of_nat j mod size0) <$> seq 0 k ∧
       num_consumable_slots (buffer c) = N.of_nat k.
Proof.
  intros Hpos Hr.
  destruct (producer_rounds_run (N.to_nat size0) k (client_new T_new size0))
    as (c & ws & Hrun & _ & Hh & Hc & -> & Hq & _); [apply client_inv_new|done|lia|lia|].
  rewrite N2Nat.id in Hc, Hq. simpl in Hc, Hq.
  exists c. do 3 (split; [done|]). split; [done|].
  unfold num_consumable_slots. by rewrite Hq, length_fmap, length_seq.
Qed.

Lemma consumer_round n c s rest :
  client_inv n c → handles c = [] → dirty_slots (buffer c) = s :: rest →
  ∃ c1 c2,
    step c call_consume_next_available = Some c1 ∧
    handles c1 = [(ACCESS_OPT_CONSUME, granted s)] ∧
    step c1 (call_destroy 0) = Some c2 ∧
    client_inv n c2 ∧ handles c2 = [] ∧
    dirty_slots (buffer c2) = rest ∧
    ∀ i d d', desc i (buffer c) = Some d → desc i (buffer c2) = Some d' →
              is_dirty d' = is_dirty d && negb (i =? s).
Proof.
  intros Hinv Hh Hq. pose proof Hinv as (Hm & Hb & Hl & _ & Hqs & _).
  destruct c as [b hs]. simpl in *. subst hs.
  rewrite Hq in Hqs. apply Forall_cons in Hqs as [Hs _].
  destruct (lookup_lt_is_Some_2 (buff_desc b) (N.to_nat s)) as [d Hd]; [lia|].
  destruct (lookup_lt_is_Some_2 (buff b) (N.to_nat s)) as [x Hx]; [lia|].
  change (desc s b = Some d) in Hd.
  destruct (quiescent_free n _ s d Hinv eq_refl Hd) as [Hex Hsh].
  set (um := {| exclusive := false; shared := S (shared (slot_mtx d)) |}).
  assert (Hl' : timed_lock_shared (slot_mtx d) = Some um)
    by (unfold timed_lock_shared; by rewrite Hex).
  set (b0 := set_dirty_slots rest b).
  destruct (grant_shared s um d BufferSlotAccess_new b0) as [[acc' b1]| |] eqn:Hg;
    [|by unfold grant_shared in Hg; simpl in Hg; rewrite Hx in Hg..].
  destruct (grant_shared_release ACCESS_OPT_CONSUME s d um b0 acc' b1)
    as (-> & Hq1 & _ & Hdes); try done.
  set (c1 := {| buffer := b1; handles := [(ACCESS_OPT_CONSUME, granted s)] |}).
  assert (Hstep : step {| buffer := b; handles := [] |} call_consume_next_available
            = Some c1).
  { simpl. unfold consume_next_available.
    rewrite wait_data_available_nonempty by (by rewrite Hq).
    rewrite Hq, Hd, Hl'. fold b0. by rewrite Hg. }
  assert (Hs2 : step c1 (call_destroy 0) = Some {| buffer := _; handles := [] |})
    by (by apply (step_destroy c1 0 ACCESS_OPT_CONSUME (granted s))).
  eexists c1, _. split; [done|]. split; [done|]. split; [exact Hs2|].
  split; [by eapply client_inv_step; [eapply client_inv_step|]|].
  split; [done|]. split; [done|].
  intros i d0 d' Hi Hi'. unfold desc in Hi'. simpl in Hi'.
  apply list_lookup_insert_Some in Hi' as [(Heq & <- & _)|(Hne & Hi')].
  - apply N2Nat.inj in Heq. subst i. simpl. by rewrite N.eqb_refl, andb_false_r.
  - unfold desc in Hi. rewrite Hi in Hi'. inversion Hi'; subst d'.
    destruct (N.eqb_spec i s) as [->|]; [done|]. by rewrite andb_true_r.
Qed.

Lemma consumer_rounds_S k c :
  consumer_rounds (S k) c
  = (c1 ← step c call_consume_next_available;
     h ← last (handles c1);
     c2 ← step c1 (call_destroy (pred (length (handles c1))));
     '(l, c3) ← consumer_rounds k c2;
     Some (h.2 :: l, c3)).
Proof. done. Qed.

Lemma consumer_rounds_run n k c :
  client_inv n c → handles c = [] →
  (k ≤ length (dirty_slots (buffer c)))%nat →
  ∃ c', consumer_rounds k c
          = Some (granted <$> take k (dirty_slots (buffer c)), c') ∧
        client_inv n c' ∧ handles c' = [] ∧
        dirty_slots (buffer c') = drop k (dirty_slots (buffer c)) ∧
        ∀ i d d', desc i (buffer c) = Some d → desc i (buffer c') = Some d' →
                  is_dirty d' = is_dirty d
                                && negb (bool_decide (i ∈ take k (dirty_slots (buffer c)))).
Proof.
  revert c. induction k as [|k IH]; intros c Hinv Hh Hk.
  - exists c. simpl. do 4 (split; [done|]).
    intros i d d' Hi Hi'. rewrite Hi in Hi'. inversion Hi'. by rewrite andb_true_r.
  - destruct (dirty_slots (buffer c)) as [|s rest] eqn:Hq; [simpl in Hk; lia|].
    destruct (consumer_round n c s rest Hinv Hh Hq)
      as (c1 & c2 & Hs1 & Hh1 & Hs2 & Hinv2 & Hh2 & Hq2 & Hd2).
    destruct (IH c2 Hinv2 Hh2) as (c3 & Hrun & Hinv3 & Hh3 & Hq3 & Hd3);
      [rewrite Hq2; simpl in Hk; lia|].
    exists c3. split.
    { rewrite consumer_rounds_S, Hs1. cbn [mbind option_bind].
      rewrite Hh1. cbn [last length pred mbind option_bind].
      rewrite Hs2. cbn [mbind option_bind]. rewrite Hrun, Hq2. done. }
    do 2 (split; [done|]). split; [by rewrite Hq3, Hq2|].
    intros i d d' Hi Hi'.
    destruct (lookup_lt_is_Some_2 (buff_desc (buffer c2)) (N.to_nat i)) as [d2 Hi2].
    { destruct Hinv as (_ & _ & Hl & _), Hinv2 as (_ & _ & Hl2 & _).
      apply lookup_lt_Some in Hi. lia. }
    rewrite (Hd3 i d2 d' Hi2 Hi'), (Hd2 i d d2 Hi Hi2), Hq2, <- andb_assoc. f_equal.
    simpl take. destruct (N.eqb_spec i s) as [->|Hne].
    + simpl. symmetry. apply negb_false_iff, bool_decide_eq_true. by left.
    + simpl. f_equal. apply bool_decide_ext. rewrite elem_of_cons.
      split; [by right|]. by intros [?|?].
Qed.

(** X13: consumers are served in queue order.  In a state a client reaches
    with no handle in scope, [k] rounds of [consume_next_available] and
    release, [k] not above the queue length, all return; the handles are on
    the first [k] entries of the queue, in order, the queue keeps the rest,
    and every slot that was served is not dirty afterwards. *)
Theorem consumers_served_in_order (size0 : N) ks c (k : nat) :
  run ks (client_new T_new size0) = Some c →
  handles c = [] →
  (k ≤ length (dirty_slots (buffer c)))%nat →
  ∃ c', consumer_rounds k c
          = Some (granted <$> take k (dirty_slots (buffer c)), c') ∧
        handles c' = [] ∧
        dirty_slots (buffer c') = drop k (dirty_slots (buffer c)) ∧
        ∀ i d', i ∈ take k (dirty_slots (buffer c)) →
                desc i (buffer c') = Some d' → is_dirty d' = false.
Proof.
  intros Hrun Hh Hk. apply client_inv_reachable in Hrun as Hinv.
  destruct (consumer_rounds_run _ k c Hinv Hh Hk) as (c' & Hc & Hinv' & Hh' & Hq & Hd).
  exists c'. do 3 (split; [done|]). intros i d' Hi Hi'.
  destruct (lookup_lt_is_Some_2 (buff_desc (buffer c)) (N.to_nat i)) as [d Hid].
  { destruct Hinv as (_ & _ & Hl & _), Hinv' as (_ & _ & Hl' & _).
    apply lookup_lt_Some in Hi'. lia. }
  rewrite (Hd i d d' Hid Hi'), bool_decide_eq_true_2 by done. by rewrite andb_false_r.
Qed.


End Threads.

(** * Rendering *)

Section Rendering_facts.
Context {T : Type}.
Variable T_new : T.
Implicit Types (b : MTCircularBuffer T) (d : BufferSlotDescriptor).

Lemma string_app_assoc (s1 s2 s3 : string) : (s1 +:+ s2) +:+ s3 = s1 +:+ (s2 +:+ s3).
Proof.
  induction s1 as [|a s1 IH]; [done|].
  change (String a ((s1 +:+ s2) +:+ s3) = String a (s1 +:+ (s2 +:+ s3))). by rewrite IH.
Qed.

Lemma string_length_app (s1 s2 : string) :
  String.length (s1 +:+ s2) = (String.length s1 + String.length s2)%nat.
Proof.
  induction s1 as [|a s1 IH]; [done|].
  change (S (String.length (s1 +:+ s2)) = S (String.length s1 + String.length s2)).
  by rewrite IH.
Qed.

Lemma foldl_render (f : BufferSlotDescriptor → string) (ss tl : string) ds :
  foldl (λ ss d, ss +:+ f d) ss ds +:+ tl = ss +:+ foldr (λ d s, f d +:+ s) tl ds.
Proof.
  revert ss. induction ds as [|d ds IH]; intros ss; simpl; [done|].
  by rewrite IH, string_app_assoc.
Qed.

Lemma slot_to_string_length d :
  n_reading d < 10 → String.length (slot_to_string d) = 3%nat.
Proof.
  intros Hn. unfold slot_to_string. destruct (writing d); [done|].
  destruct (N.ltb_spec 0 (n_reading d)) as [Hpos|_]; [|by destruct (is_dirty d)].
  rewrite string_length_app.
  assert (Hc : n_reading d = 1 ∨ n_reading d = 2 ∨ n_reading d = 3 ∨ n_reading d = 4 ∨
               n_reading d = 5 ∨ n_reading d = 6 ∨ n_reading d = 7 ∨ n_reading d = 8 ∨
               n_reading d = 9) by lia.
  destruct Hc as [->|[->|[->|[->|[->|[->|[->|[->| ->]]]]]]]]; reflexivity.
Qed.

(** X15: the rendering of a freshly built buffer of [size] slots is ["[ "],
    then [size] times [" . "], then [" ]"]. *)
Theorem to_string_new (size : N) :
  to_string (MTCircularBuffer_new T_new size)
    = Some ("[ " +:+ foldr String.append " ]" (replicate (N.to_nat size) " . ")).
Proof.
  unfold to_string. simpl main_mtx. cbv iota. f_equal.
  rewrite foldl_render. f_equal. simpl buff_desc.
  generalize 0%nat. induction (N.to_nat size) as [|n IH]; intros j; simpl; [done|].
  by rewrite IH.
Qed.

(** X16: when the coarse mutex is free and no slot has ten readers or more,
    the rendering has exactly three characters per slot between the two
    characters of ["[ "] and the two of [" ]"]. *)
Theorem to_string_length b :
  main_mtx b = false →
  Forall (λ d, n_reading d < 10) (buff_desc b) →
  ∃ str, to_string b = Some str ∧
         String.length str = (4 + 3 * length (buff_desc b))%nat.
Proof.
  intros Hm Hn. unfold to_string. rewrite Hm. eexists. split; [done|].
  rewrite foldl_render, string_length_app.
  change (String.length "[ ") with 2%nat.
  induction Hn as [|d ds Hd _ IH]; [done|].
  simpl foldr. rewrite string_length_app, slot_to_string_length by done.
  simpl length. lia.
Qed.

End Rendering_facts.

(** * Timeouts and waiting *)

Section Errors.
Context {T : Type}.
Implicit Types (b : MTCircularBuffer T) (acc : BufferSlotAccess)
  (d : BufferSlotDescriptor) (s i : N).





(** X19: two [write_next] calls in a row that both return, with the first
    handle still in scope, bind different slots; the second one is the
    slot after the first, modulo the size. *)
Theorem consecutive_writes_differ ow1 ow2 b a1 o1 b1 a2 o2 b2 :
  write_next BufferSlotAccess_new ow1 b = Returned (a1, o1, b1) →
  write_next BufferSlotAccess_new ow2 b1 = Returned (a2, o2, b2) →
  slot a2 ≠ slot a1 ∧
  (size_t_range (size b) → slot a2 = (slot a1 + 1) mod size b).
Proof.
  intros H1 H2.
  apply write_next_inv in H1 as (d & um & Hd & Hl & Hx & _ & Hr1).
  inversion Hr1; subst a1 o1 b1; clear Hr1.
  apply write_next_inv in H2 as (d' & um' & Hd' & Hl' & _ & _ & Hr2).
  inversion Hr2; subst a2 o2 b2; clear Hr2.
  simpl slot_lock in *. simpl slot. simpl curr_w_slot in *.
  set (w := curr_w_slot b) in *. split.
  - intros Heq. rewrite Heq in Hd'.
    match type of Hd' with desc _ ?b1 = _ =>
      assert (Hd1 : desc w b1 = Some (set_writing true (set_slot_mtx um d)))
        by (apply (desc_set_desc_eq w _ b); eauto)
    end.
    rewrite Hd1 in Hd'. inversion Hd'; subst d'.
    unfold timed_lock in Hl.
    destruct (exclusive (slot_mtx d) || negb (shared (slot_mtx d) =? 0)%nat); [done|].
    by inversion Hl; subst um.
  - intros Hr. unfold size_t_incr. unfold size_t_range in Hr.
    destruct Hx as [x Hx]. apply lookup_lt_Some in Hx. unfold size in *.
    by rewrite (N.mod_small (w + 1)) by lia.
Qed.

End Errors.

(** * Overwrites *)

Section Overwrite.

Context {T : Type}.
Variable T_new : T.

Lemma lapped (n : N) (k : nat) :
  0 < n →
  N.of_nat k mod n ∈ ((λ j, N.of_nat j mod n) <$> seq 0 k) ↔ n ≤ N.of_nat k.
Proof.
  intros Hn. rewrite list_elem_of_fmap. split.
  - intros (j & Heq & Hj). apply elem_of_seq in Hj.
    destruct (N.le_gt_cases n (N.of_nat k)) as [|Hlt]; [done|].
    rewrite !N.mod_small in Heq by lia. lia.
  - intros Hle. exists (k - N.to_nat n)%nat. split.
    + replace (N.of_nat k) with (N.of_nat (k - N.to_nat n) + 1 * n) at 1 by lia.
      by rewrite N.Div0.mod_add.
    + apply elem_of_seq. lia.
Qed.

(** X20: an overwrite is reported exactly when the producer has lapped the
    ring.  On a fresh buffer of [size0] slots, after [k] rounds of
    [write_next] and release with no consumer, the next [write_next] returns
    a handle on slot [k mod size0] and sets [overwrite_occurred] to whether
    [k] has reached [size0]. *)
Theorem overwrite_when_lapped (size0 : N) (k : nat) (v : bool) :
  0 < size0 → size0 < 2 ^ 64 →
  ∃ c b',
    run (producer_rounds k) (client_new T_new size0) = Some c ∧
    write_next BufferSlotAccess_new (Some v) (buffer c)
      = Returned (granted (N.of_nat k mod size0),
                  Some (bool_decide (size0 ≤ N.of_nat k)), b').
Proof.
  intros Hpos Hr.
  destruct (producer_rounds_run (N.to_nat size0) k (client_new T_new size0))
    as (c & ws & Hrun & Hinv & Hh & Hc & Hws & _ & Hd);
    [apply client_inv_new|done|lia|lia|].
  rewrite N2Nat.id in Hc, Hws. simpl in Hc, Hws.
  pose proof Hinv as (Hm & Hb & Hl & _).
  assert (Hlt : (N.to_nat (curr_w_slot (buffer c)) < N.to_nat size0)%nat).
  { assert (curr_w_slot (buffer c) < size0)
      by (rewrite Hc; apply N.mod_upper_bound; lia). lia. }
  destruct (lookup_lt_is_Some_2 (buff_desc (buffer c)) (N.to_nat (curr_w_slot (buffer c))))
    as [d Hdc]; [lia|].
  destruct (lookup_lt_is_Some_2 (buff (buffer c)) (N.to_nat (curr_w_slot (buffer c))))
    as [x Hx]; [lia|].
  change (desc (curr_w_slot (buffer c)) (buffer c) = Some d) in Hdc.
  destruct (quiescent_free _ c _ d Hinv Hh Hdc) as [Hex Hsh].
  destruct (lookup_lt_is_Some_2 (buff_desc (buffer (client_new T_new size0)))
              (N.to_nat (curr_w_slot (buffer c)))) as [d0 Hd0].
  { simpl. rewrite length_fmap, length_seq. lia. }
  assert (Hdirty : is_dirty d = bool_decide (size0 ≤ N.of_nat k)).
  { rewrite (Hd _ d0 d Hd0 Hdc).
    assert (Hfresh : is_dirty d0 = false).
    { simpl in Hd0. apply list_lookup_fmap_Some in Hd0 as (j & -> & _). done. }
    rewrite Hfresh. simpl. apply bool_decide_ext. rewrite Hc, Hws. by apply lapped. }
  exists c. eexists. split; [done|].
  unfold write_next. rewrite Hdc. unfold timed_lock. rewrite Hex, Hsh. simpl.
  rewrite Hx. simpl. rewrite Hm. unfold size. simpl. rewrite Hb.
  destruct (N.eqb_spec (N.of_nat (N.to_nat size0)) 0); [lia|].
  by rewrite Hdirty, Hc.
Qed.

End Overwrite.

(** * The further theorems at work *)

(** Slot 2 dirty, slot 4 read by one reader, as the code prints it. *)
Example test_to_string :
  ∃ c, run [call_write_next; call_destroy 0; call_write_next; call_destroy 0;
            call_write_next; call_destroy 0;
            call_consume_next_available; call_destroy 0;
            call_consume_next_available; call_destroy 0;
            call_read_slot 4] (client_new 0%Z 5) = Some c ∧
       to_string (buffer c) = Some "[  .  .  X  . 1R  ]".
Proof. eexists. split; vm_compute; reflexivity. Qed.

Lemma never_written_and_read_witness :
  ∃ c, run [call_write_next; call_read_slot 0; call_read_slot 1] (client_new 0%Z 2)
         = Some c ∧
       is_written 0 (buffer c) = true ∧
       is_read 1 (buffer c) = true ∧
       is_written 0 (buffer c) && is_read 0 (buffer c) = false ∧
       is_written 1 (buffer c) && is_read 1 (buffer c) = false.
Proof.
  eexists. split; [reflexivity|]. do 2 (split; [reflexivity|]). split.
  - apply (never_written_and_read 0%Z 2
             [call_write_next; call_read_slot 0; call_read_slot 1]). reflexivity.
  - apply (never_written_and_read 0%Z 2
             [call_write_next; call_read_slot 0; call_read_slot 1]). reflexivity.
Defined.

Lemma descriptors_count_handles_witness :
  ∃ c, run [call_read_slot 1; call_write_next; call_read_slot 1] (client_new 0%Z 2)
         = Some c ∧
       1 < 2 ∧
       holders true 1 (handles c) = 0%nat ∧
       num_concurrent_read 1 (buffer c) = 2.
Proof.
  eexists. split; [reflexivity|]. split; [reflexivity|].
  destruct (descriptors_count_handles 0%Z 2
              [call_read_slot 1; call_write_next; call_read_slot 1] _ 1
              eq_refl eq_refl) as [Hw Hr].
  split; [exact Hw|exact Hr].
Defined.

Lemma no_lock_without_handle_witness :
  ∃ c d, run [call_write_next; call_read_slot 1; call_destroy 0; call_destroy 0]
             (client_new 0%Z 2) = Some c ∧
         handles c = [] ∧
         desc 0 (buffer c) = Some d ∧
         slot_mtx d = shared_mutex_new ∧ writing d = false ∧ n_reading d = 0.
Proof.
  do 2 eexists. split; [vm_compute; reflexivity|].
  split; [reflexivity|]. split; [reflexivity|].
  eapply (no_lock_without_handle 0%Z 2
            [call_write_next; call_read_slot 1; call_destroy 0; call_destroy 0] _ 0 _);
    [vm_compute; reflexivity|constructor|reflexivity].
Defined.

Lemma capacity_and_cursor_witness :
  ∃ c, run (producer_rounds 5) (client_new 0%Z 3) = Some c ∧
       size (buffer c) = 3 ∧ aligned (buffer c) ∧
       (0 < 3 → curr_w_slot (buffer c) < 3).
Proof.
  eexists. split; [vm_compute; reflexivity|].
  apply (capacity_and_cursor 0%Z 3 (producer_rounds 5)). vm_compute; reflexivity.
Defined.

Lemma dirty_slots_in_range_witness :
  ∃ c, run (producer_rounds 5) (client_new 0%Z 3) = Some c ∧
       dirty_slots (buffer c) = [0; 1; 2; 0; 1] ∧
       Forall (λ s, s < 3) (dirty_slots (buffer c)).
Proof.
  eexists. split; [vm_compute; reflexivity|]. split; [reflexivity|].
  apply (dirty_slots_in_range 0%Z 3 (producer_rounds 5)). vm_compute; reflexivity.
Defined.

Lemma client_calls_defined_witness :
  ∃ c, run [call_write_next; call_destroy 0; call_write_next] (client_new 0%Z 1)
         = Some c ∧
       is_Some (step c call_read_newest_available) ∧
       is_Some (step c call_consume_next_available) ∧
       is_Some (step c call_clear) ∧
       (0 < 1 → is_Some (step c call_write_next)) ∧
       (∀ s, s < 1 → is_Some (step c (call_read_slot s))) ∧
       (∀ h, (h < length (handles c))%nat → is_Some (step c (call_destroy h))).
Proof.
  eexists. split; [reflexivity|].
  apply (client_calls_defined 0%Z 1
           [call_write_next; call_destroy 0; call_write_next]). reflexivity.
Defined.

Lemma read_slot_release_restores_witness :
  ∃ b',
    desc 0 two_slots_one_filled = Some (set_is_dirty true BufferSlotDescriptor_new) ∧
    size_t_range 0 ∧
    read_slot 0 BufferSlotAccess_new two_slots_one_filled = Returned (granted 0, b') ∧
    num_concurrent_read 0 b' = 1 ∧
    dirty_slots b' = [0] ∧
    destroy ACCESS_OPT_READ (granted 0) b' = Some two_slots_one_filled.
Proof.
  eexists. do 3 (split; [reflexivity|]).
  destruct (read_slot_release_restores 0 two_slots_one_filled
              (set_is_dirty true BufferSlotDescriptor_new) (granted 0) _
              eq_refl eq_refl eq_refl) as (_ & Hn & Hq & Hd).
  split; [exact Hn|]. split; [exact Hq|exact Hd].
Defined.

Lemma read_newest_available_peeks_witness :
  dirty_slots two_slots_one_filled = [] ++ [0] ∧
  ∃ b', read_newest_available 0 [] BufferSlotAccess_new two_slots_one_filled
          = Returned (granted 0, b') ∧
        dirty_slots b' = [] ++ [0] ∧
        destroy ACCESS_OPT_READ (granted 0) b' = Some two_slots_one_filled.
Proof.
  split; [reflexivity|].
  apply (read_newest_available_peeks 0 [] two_slots_one_filled [] 0
           (set_is_dirty true BufferSlotDescriptor_new));
    [reflexivity|reflexivity|by eexists|reflexivity|reflexivity].
Defined.

Lemma write_next_release_witness :
  ∃ b' d b'' d'',
    write_next BufferSlotAccess_new (Some false) two_slots_one_filled
      = Returned (granted 1, Some false, b') ∧
    desc 1 two_slots_one_filled = Some d ∧
    destroy ACCESS_OPT_WRITE (granted 1) b' = Some b'' ∧
    desc 1 b'' = Some d'' ∧
    is_dirty d'' = true ∧ writing d'' = false ∧
    dirty_slots b'' = [0; 1] ∧
    num_consumable_slots b'' = 2.
Proof.
  eexists.
  destruct (write_next_release (Some false) two_slots_one_filled (granted 1)
              (Some false) _ eq_refl)
    as (d & b'' & d'' & Hd & _ & Hdes & Hd'' & Hdirty & Hw & _ & _ & Hq & Hn & _).
  exists d, b'', d''. split; [reflexivity|]. repeat split; assumption.
Defined.

Lemma writer_excludes_others_witness :
  ∃ b',
    write_next BufferSlotAccess_new None (MTCircularBuffer_new 0%Z 1)
      = Returned (granted 0, None, b') ∧
    read_slot 0 BufferSlotAccess_new b'
      = Thrown SlotAcqTimeout (BufferSlotAccess_new, b') ∧
    write_next BufferSlotAccess_new None b'
      = Thrown SlotAcqTimeout (BufferSlotAccess_new, None, b').
Proof.
  eexists. split; [reflexivity|].
  destruct (writer_excludes_others None (MTCircularBuffer_new 0%Z 1) (granted 0) None _
              eq_refl) as (Hr & _ & _ & Hw).
  split; [apply Hr|apply Hw; reflexivity].
Defined.

Lemma readers_share_and_exclude_writer_witness :
  ∃ b' b'',
    read_slot 0 BufferSlotAccess_new (MTCircularBuffer_new 0%Z 1)
      = Returned (granted 0, b') ∧
    read_slot 0 BufferSlotAccess_new b' = Returned (granted 0, b'') ∧
    write_next BufferSlotAccess_new None b'
      = Thrown SlotAcqTimeout (BufferSlotAccess_new, None, b').
Proof.
  eexists.
  destruct (readers_share_and_exclude_writer 0 (MTCircularBuffer_new 0%Z 1)
              (granted 0) _ eq_refl) as [[b'' Hr] Hw].
  exists b''. split; [reflexivity|]. split; [exact Hr|apply Hw; reflexivity].
Defined.

Lemma producer_goes_round_witness :
  0 < 3 ∧ 3 < 2 ^ 64 ∧
  ∃ c, run (producer_rounds 7) (client_new 0%Z 3) = Some c ∧
       handles c = [] ∧
       curr_w_slot (buffer c) = N.of_nat 7 mod 3 ∧
       dirty_slots (buffer c) = (λ j, N.of_nat j mod 3) <$> seq 0 7 ∧
       num_consumable_slots (buffer c) = N.of_nat 7.
Proof.
  split; [reflexivity|]. split; [reflexivity|].
  apply (producer_goes_round 0%Z 3 7); reflexivity.
Defined.

Lemma consumers_served_in_order_witness :
  ∃ c,
    run (producer_rounds 3) (client_new 0%Z 3) = Some c ∧
    handles c = [] ∧
    (2 ≤ length (dirty_slots (buffer c)))%nat ∧
    ∃ c', consumer_rounds 2 c = Some ([granted 0; granted 1], c') ∧
          dirty_slots (buffer c') = [2].
Proof.
  eexists. split; [vm_compute; reflexivity|].
  split; [reflexivity|]. split; [vm_compute; lia|].
  match goal with |- context [consumer_rounds 2 ?c] =>
    destruct (consumers_served_in_order 0%Z 3 (producer_rounds 3) c 2)
      as (c' & Hc & _ & Hq & _);
      [vm_compute; reflexivity|reflexivity|vm_compute; lia|]
  end.
  exists c'. split; [exact Hc|exact Hq].
Defined.


Lemma to_string_length_witness :
  main_mtx two_slots_one_filled = false ∧
  ∃ str, to_string two_slots_one_filled = Some str ∧
         String.length str = (4 + 3 * length (buff_desc two_slots_one_filled))%nat.
Proof.
  split; [reflexivity|].
  apply (to_string_length two_slots_one_filled); [reflexivity|].
  repeat constructor.
Defined.



Lemma consecutive_writes_differ_witness :
  ∃ b1 b2,
    write_next BufferSlotAccess_new None (MTCircularBuffer_new 0%Z 2)
      = Returned (granted 0, None, b1) ∧
    write_next BufferSlotAccess_new None b1 = Returned (granted 1, None, b2) ∧
    slot (granted 1) ≠ slot (granted 0).
Proof.
  do 2 eexists. split; [reflexivity|]. split; [reflexivity|].
  apply (consecutive_writes_differ None None (MTCircularBuffer_new 0%Z 2)
           (granted 0) None _ (granted 1) None _ eq_refl eq_refl).
Defined.

Lemma overwrite_when_lapped_witness :
  0 < 2 ∧ 2 < 2 ^ 64 ∧
  ∃ c b',
    run (producer_rounds 2) (client_new 0%Z 2) = Some c ∧
    write_next BufferSlotAccess_new (Some false) (buffer c)
      = Returned (granted (N.of_nat 2 mod 2), Some (bool_decide (2 ≤ N.of_nat 2)), b').
Proof.
  split; [reflexivity|]. split; [reflexivity|].
  apply (overwrite_when_lapped 0%Z 2 2 false); reflexivity.
Defined.
